(** * torch/utils/mobile_optimizer.py: the mobile optimizer wrapper and the module lints

    A shallow embedding of [optimize_for_mobile] and
    [generate_mobile_module_lints] over an explicit Python store: objects live
    at locations, the two functions are computations in a state-and-exception
    monad, and the calls that leave the file (the optimizer pass of [torch._C],
    [wrap_cpp_module], [named_parameters], [export_opnames]) are logged in the
    order they are made. *)

From stdpp Require Import base option list gmap strings.
From Stdlib Require Import ZArith.

Local Open Scope string_scope.
Local Open Scope list_scope.
Local Open Scope stdpp_scope.

(** ** Lint codes (class LintCode(Enum), lines 10-14) *)

Inductive LintCode := BUNDLED_INPUT | REQUIRES_GRAD | DROPOUT | BATCHNORM.

Global Instance LintCode_eq_dec : EqDecision LintCode.
Proof. solve_decision. Defined.

(** [LintCode.X.value] *)
Definition LintCode_value (c : LintCode) : Z :=
  match c with
  | BUNDLED_INPUT => 1
  | REQUIRES_GRAD => 2
  | DROPOUT => 3
  | BATCHNORM => 4
  end.

(** [LintCode.X.name] *)
Definition LintCode_name (c : LintCode) : string :=
  match c with
  | BUNDLED_INPUT => "BUNDLED_INPUT"
  | REQUIRES_GRAD => "REQUIRES_GRAD"
  | DROPOUT => "DROPOUT"
  | BATCHNORM => "BATCHNORM"
  end.

(** ** Python values *)

Definition loc := positive.
Bind Scope positive_scope with loc.

Inductive value :=
  | VNone
  | VBool (b : bool)
  | VInt (n : Z)
  | VStr (s : string)
  | VEnum (c : LintCode)
  | VRef (l : loc).

Global Instance value_eq_dec : EqDecision value.
Proof. solve_decision. Defined.

(** A lint is a dict literal with string keys. *)
Abbreviation Finding := (gmap string value).

(** [sub in s] on Python strings: [sub] starts at some position of [s]. *)
Fixpoint py_in (sub s : string) : bool :=
  String.prefix sub s ||
  match s with
  | EmptyString => false
  | String _ s' => py_in sub s'
  end.

(** *** The four dict literals appended by the lint (lines 49-66) *)

Definition bundled_input_message : string :=
  "No bundled input, please add bundled inputs before " +:+
  "saving the module using torch.utils.bundled_inputs.augment_model_with_bundled_inputs.".

Definition requires_grad_message (name : string) : string :=
  "Param " +:+ name +:+ " requires grad, " +:+
  "please set torch.no_grad() to reduce memory usage and improve computation speed during " +:+
  "inference phase.".

Definition dropout_message (op_name : string) : string :=
  "Operator " +:+ op_name +:+ " exists, remember to call eval() before " +:+
  "saving the module.".

Definition batchnorm_message (op_name : string) : string :=
  "Operator " +:+ op_name +:+ " exists, remember to call eval() before " +:+
  "saving the module and call torch.utils.mobile_optimizer.optimize_for_mobile to drop batch_norm " +:+
  "operator.".

Definition mk_lint (c : LintCode) (message : string) : Finding :=
  <["name" := VStr (LintCode_name c)]> (<["message" := VStr message]> ∅).

Definition bundled_input_lint : Finding := mk_lint BUNDLED_INPUT bundled_input_message.
Definition requires_grad_lint (name : string) : Finding :=
  mk_lint REQUIRES_GRAD (requires_grad_message name).
Definition dropout_lint (op_name : string) : Finding :=
  mk_lint DROPOUT (dropout_message op_name).
Definition batchnorm_lint (op_name : string) : Finding :=
  mk_lint BATCHNORM (batchnorm_message op_name).

(** ** Exceptions and outcomes *)

Record exn := Exn { exn_class : string; exn_msg : string }.

Definition TypeError (msg : string) : exn := Exn "TypeError" msg.
Definition RuntimeError (msg : string) : exn := Exn "RuntimeError" msg.

Inductive result (A : Type) :=
  | Ok (a : A)
  | Raise (e : exn).
Arguments Ok {A} a.
Arguments Raise {A} e.

(** Calls that leave the file, as the store records them. *)
Inductive call :=
  | Call_jit_pass_optimize_for_mobile (c whitelist : value)
  | Call_wrap_cpp_module (c : value)
  | Call_named_parameters (m : value)
  | Call_export_opnames (m : value).

(** The tensor behind a parameter; the lint reads one attribute of it. *)
Record Param := { requires_grad : bool }.

(** The default of [whitelist_optimizer_dict]: the one dict object the [def]
    statement of line 16 builds, shared by every call that omits the
    argument. *)
Definition DEFAULT_WHITELIST : loc := 1%positive.

Section Store.

(** [MobileOptimizerType] comes from [torch._C]; the computation graph is the
    engine's own data. *)
Context {PassId : Type} `{Countable PassId} {Graph : Type}.

(** The C++ module a ScriptModule wraps in [_c]: its graph, the methods it
    defines (attribute lookup on the wrapper falls through to them), its named
    parameters in iteration order, and the operator names it exports. *)
Record CppModule := {
  graph : Graph;
  methods : list string;
  parameters : list (string * Param);
  opnames : list string
}.

(** A [torch.jit.ScriptModule] instance. *)
Record ScriptModule := { _c : loc }.

Inductive object :=
  | OScriptModule (sm : ScriptModule)
  | OCppModule (cm : CppModule)
  | ODict (d : gmap PassId bool)
  | OOther (cls : string).

Record World := { heap : gmap loc object; calls : list call }.

Definition M (A : Type) : Type := World → result A * World.

Definition ret {A} (a : A) : M A := λ w, (Ok a, w).

Definition bind {A B} (m : M A) (f : A → M B) : M B :=
  λ w, match m w with
       | (Ok a, w') => f a w'
       | (Raise e, w') => (Raise e, w')
       end.

Definition raise {A} (e : exn) : M A := λ w, (Raise e, w).

Definition log (c : call) : M unit :=
  λ w, (Ok tt, {| heap := heap w; calls := calls w ++ [c] |}).

Definition alloc (o : object) : M value :=
  λ w, let l := fresh (dom (heap w)) in
       (Ok (VRef l), {| heap := <[l := o]> (heap w); calls := calls w |}).

Global Instance M_ret : MRet M := @ret.
Global Instance M_bind : MBind M := λ A B f m, bind m f.

(** *** Reading the store *)

Definition deref (w : World) (v : value) : option object :=
  match v with
  | VRef l => heap w !! l
  | _ => None
  end.

(** [isinstance(v, torch.jit.ScriptModule)] *)
Definition isinstance_ScriptModule (w : World) (v : value) : bool :=
  match deref w v with
  | Some (OScriptModule _) => true
  | _ => false
  end.

(** [str(type(v))], the text that [format] puts in the message. *)
Definition type_str (w : World) (v : value) : string :=
  match v with
  | VNone => "<class 'NoneType'>"
  | VBool _ => "<class 'bool'>"
  | VInt _ => "<class 'int'>"
  | VStr _ => "<class 'str'>"
  | VEnum _ => "<enum 'LintCode'>"
  | VRef l =>
      match heap w !! l with
      | Some (OScriptModule _) => "<class 'torch.jit.ScriptModule'>"
      | Some (OCppModule _) => "<class 'torch._C.ScriptModule'>"
      | Some (ODict _) => "<class 'dict'>"
      | Some (OOther cls) => "<class '" +:+ cls +:+ "'>"
      | None => "<class 'object'>"
      end
  end.

(** Lines 26-28 and 42-44: [if not isinstance(...): raise TypeError(...)]. *)
Definition check_ScriptModule (script_module : value) : M ScriptModule :=
  λ w, match deref w script_module with
       | Some (OScriptModule sm) => (Ok sm, w)
       | _ => (Raise (TypeError ("Got " +:+ type_str w script_module +:+
                                  ", but ScriptModule is expected.")), w)
       end.

(** The C++ module behind a reference. A store that Python can build never
    takes the second branch. *)
Definition cpp_module_of (c : value) : M CppModule :=
  λ w, match deref w c with
       | Some (OCppModule cm) => (Ok cm, w)
       | _ => (Raise (RuntimeError "not a C++ module"), w)
       end.

(** Modelled from the spec: [has_bundled_input_support(module) -> bool] of the
    Module Introspection API, reached in the source as
    [hasattr(script_module, name)]. The attribute protocol of ScriptModule is
    not in this file; a name is an attribute when the C++ module defines it. *)
Definition hasattr (sm : ScriptModule) (name : string) : M bool :=
  cm ← cpp_module_of (VRef (_c sm));
  mret (bool_decide (name ∈ methods cm)).

(** Modelled from the spec: [named_parameters(module) -> sequence<(name,
    requires_grad)>] of the Module Introspection API, reached in the source
    as [script_module.named_parameters()]. *)
Definition named_parameters (script_module : value) (sm : ScriptModule)
  : M (list (string * Param)) :=
  log (Call_named_parameters script_module);;
  cm ← cpp_module_of (VRef (_c sm));
  mret (parameters cm).

(** Modelled from the spec: [operator_names(module)] of the Module
    Introspection API, reached in the source as
    [torch.jit.export_opnames(script_module)], which returns the names as a
    list. *)
Definition export_opnames (script_module : value) (sm : ScriptModule)
  : M (list string) :=
  log (Call_export_opnames script_module);;
  cm ← cpp_module_of (VRef (_c sm));
  mret (opnames cm).

(** ** generate_mobile_module_lints (lines 34-68) *)

Definition lint_param (lint_list : list Finding) (np : string * Param)
  : list Finding :=
  let '(name, param) := np in
  if requires_grad param
  then lint_list ++ [requires_grad_lint name]
  else lint_list.

Definition lint_op (lint_list : list Finding) (op_name : string)
  : list Finding :=
  let lint_list :=
    if py_in "dropout" op_name
    then lint_list ++ [dropout_lint op_name]
    else lint_list in
  if py_in "batch_norm" op_name
  then lint_list ++ [batchnorm_lint op_name]
  else lint_list.

Definition generate_mobile_module_lints (script_module : value)
  : M (list Finding) :=
  sm ← check_ScriptModule script_module;
  let lint_list : list Finding := [] in
  has ← hasattr sm "_generate_bundled_inputs";
  let lint_list :=
    if negb has then lint_list ++ [bundled_input_lint] else lint_list in
  params ← named_parameters script_module sm;
  let lint_list := fold_left lint_param params lint_list in
  op_names ← export_opnames script_module sm;
  let lint_list := fold_left lint_op op_names lint_list in
  mret lint_list.

(** ** optimize_for_mobile (lines 16-31) *)

Section Wrapper.

(** [torch._C._jit_pass_optimize_for_mobile] and
    [torch.jit._recursive.wrap_cpp_module], whatever they are. *)
Variable _jit_pass_optimize_for_mobile : value → value → M value.
Variable wrap_cpp_module : value → M value.

Definition optimize_for_mobile (script_module : value)
    (whitelist_optimizer_dict : option value) : M value :=
  let whitelist_optimizer_dict :=
    default (VRef DEFAULT_WHITELIST) whitelist_optimizer_dict in
  sm ← check_ScriptModule script_module;
  optimized_cpp_module ←
    (log (Call_jit_pass_optimize_for_mobile (VRef (_c sm)) whitelist_optimizer_dict);;
     _jit_pass_optimize_for_mobile (VRef (_c sm)) whitelist_optimizer_dict);
  log (Call_wrap_cpp_module optimized_cpp_module);;
  wrap_cpp_module optimized_cpp_module.

End Wrapper.

(** ** The external engine and the wrapping API, as the spec describes them *)

Section Engine.

(** The passes the engine knows, in the order in which it runs them, and the
    rewrite each of them performs on a C++ module. *)
Variable known_passes : list PassId.
Variable run_pass : PassId → CppModule → CppModule.

(** The dictionary behind a reference, as the engine receives it. *)
Definition dict_of (v : value) : M (gmap PassId bool) :=
  λ w, match deref w v with
       | Some (ODict d) => (Ok d, w)
       | _ => (Raise (TypeError "incompatible function arguments"), w)
       end.

(** Modelled from the spec: the pass selection of the Graph Transformation
    Engine, which is C++ behind [torch._C]. An empty selector means "run all
    available passes"; a populated selector activates only the passes mapped
    to true, all others are skipped. An identifier the engine does not know
    selects nothing. *)
Definition pass_enabled (selector : gmap PassId bool) (p : PassId) : bool :=
  bool_decide (selector = ∅) || bool_decide (selector !! p = Some true).

(** Modelled from the spec: [apply_passes(graph, pass_selector) -> graph] of
    the Graph Transformation Engine; the enabled passes run in the engine's
    fixed order. *)
Definition apply_passes (selector : gmap PassId bool) (cm : CppModule)
  : CppModule :=
  fold_left (λ cm p, if pass_enabled selector p then run_pass p cm else cm)
            known_passes cm.

(** Modelled from the spec: [torch._C._jit_pass_optimize_for_mobile], the
    entry point of the Graph Transformation Engine. It reads the module and
    the selector and returns a newly built module; the module it is given is
    not written to. A selector that is no dictionary is outside the spec and
    is refused. *)
Definition spec_jit_pass_optimize_for_mobile (c whitelist : value) : M value :=
  cm ← cpp_module_of c;
  selector ← dict_of whitelist;
  alloc (OCppModule (apply_passes selector cm)).

(** Modelled from the spec: [torch.jit._recursive.wrap_cpp_module], the Module
    Wrapping API [wrap(raw_graph_artifact) -> module]: a new ScriptModule
    around the C++ module it is given. *)
Definition spec_wrap_cpp_module (c : value) : M value :=
  match c with
  | VRef l => cpp_module_of c;; alloc (OScriptModule {| _c := l |})
  | _ => raise (TypeError "incompatible function arguments")
  end.

(** [optimize_for_mobile] linked against the engine and the wrapping API of
    the spec. *)
Definition optimize_for_mobile_linked : value → option value → M value :=
  optimize_for_mobile spec_jit_pass_optimize_for_mobile spec_wrap_cpp_module.

(** Every known pass, in order: what "run all available passes" computes. *)
Definition run_all_passes (cm : CppModule) : CppModule :=
  fold_left (λ cm p, run_pass p cm) known_passes cm.

(** A caller that makes the calls [args] one after the other, each a module
    and a selector or none, and keeps every outcome. *)
Fixpoint optimize_each (args : list (value * option value)) (w : World)
  : list (result value) * World :=
  match args with
  | [] => ([], w)
  | (script_module, whitelist) :: args =>
      let '(r, w1) :=
        optimize_for_mobile_linked script_module whitelist w in
      let '(rs, w2) := optimize_each args w1 in
      (r :: rs, w2)
  end.

End Engine.

End Store.

Arguments CppModule : clear implicits.
Arguments object PassId {_ _} Graph.
Arguments World PassId {_ _} Graph.

(** ** Predicates on stores and closed forms of the lint *)

(** What one parameter and one operator name add to the list. *)
Definition param_lints (np : string * Param) : list Finding :=
  if requires_grad np.2 then [requires_grad_lint np.1] else [].

Definition op_lints (op_name : string) : list Finding :=
  (if py_in "dropout" op_name then [dropout_lint op_name] else []) ++
  (if py_in "batch_norm" op_name then [batchnorm_lint op_name] else []).

Section Predicates.

Context {PassId : Type} `{Countable PassId} {Graph : Type}.
Implicit Types (w : World PassId Graph) (cm : CppModule Graph).

(** A ScriptModule at [l] whose [_c] holds the C++ module [cm]. *)
Definition module_at w (l : loc) cm : Prop :=
  ∃ sm, heap w !! l = Some (OScriptModule sm) ∧
        heap w !! _c sm = Some (OCppModule cm).

Definition bundled_lints cm : list Finding :=
  if bool_decide ("_generate_bundled_inputs" ∈ methods cm)
  then [] else [bundled_input_lint].

(** The list the lint returns for a module, in closed form. *)
Definition lints_of cm : list Finding :=
  bundled_lints cm ++ flat_map param_lints (parameters cm) ++
  flat_map op_lints (opnames cm).

Definition lint_calls (l : loc) : list call :=
  [Call_named_parameters (VRef l); Call_export_opnames (VRef l)].

(** A computation that leaves every object of the store as it was: it may
    allocate and it may log calls. *)
Definition preserving {A} (m : M (PassId := PassId) (Graph := Graph) A) : Prop :=
  ∀ w r w', m w = (r, w') → heap w ⊆ heap w'.

(** The dictionary a call uses as its selector. *)
Definition selector_at w (sel : option value) (d : gmap PassId bool) : Prop :=
  deref w (default (VRef DEFAULT_WHITELIST) sel) = Some (ODict d).

End Predicates.

Arguments preserving PassId {_ _} Graph {A} m.

(** A REQUIRES_GRAD finding whose message names the parameter [name]. *)
Definition requires_grad_finding_for (name : string) (f : Finding) : Prop :=
  f !! "name" = Some (VStr (LintCode_name REQUIRES_GRAD)) ∧
  f !! "message" = Some (VStr (requires_grad_message name)).

Global Instance requires_grad_finding_for_dec name f :
  Decision (requires_grad_finding_for name f).
Proof. unfold requires_grad_finding_for. apply _. Defined.

(** A finding that carries the name of the lint code [c]. *)
Definition has_code (c : LintCode) (f : Finding) : Prop :=
  f !! "name" = Some (VStr (LintCode_name c)).

Global Instance has_code_dec c f : Decision (has_code c f).
Proof. unfold has_code. apply _. Defined.

(** ** A concrete store *)

Module Scenario.

(** Pass identifiers: three the engine knows, in its order, and one it does
    not. *)
Inductive Pass := FUSION | DEAD_CODE_ELIMINATION | LAYOUT_CONVERSION | UNRECOGNIZED.

Global Instance Pass_eq_dec : EqDecision Pass.
Proof. solve_decision. Defined.

Definition Pass_to_nat (p : Pass) : nat :=
  match p with
  | FUSION => 0
  | DEAD_CODE_ELIMINATION => 1
  | LAYOUT_CONVERSION => 2
  | UNRECOGNIZED => 3
  end.

Definition Pass_of_nat (n : nat) : Pass :=
  match n with
  | 0 => FUSION
  | 1 => DEAD_CODE_ELIMINATION
  | 2 => LAYOUT_CONVERSION
  | _ => UNRECOGNIZED
  end.

Global Instance Pass_countable : Countable Pass.
Proof.
  refine (inj_countable' Pass_to_nat Pass_of_nat _).
  intros []; reflexivity.
Defined.

Definition known : list Pass := [FUSION; DEAD_CODE_ELIMINATION; LAYOUT_CONVERSION].

(** A graph is the list of its nodes; a pass leaves its mark at the end. *)
Definition mark_pass (p : Pass) (cm : CppModule (list string)) : CppModule (list string) :=
  {| graph := graph cm ++ [match p with
                           | FUSION => "fused"
                           | DEAD_CODE_ELIMINATION => "pruned"
                           | LAYOUT_CONVERSION => "channels_last"
                           | UNRECOGNIZED => "?"
                           end];
     methods := methods cm;
     parameters := parameters cm;
     opnames := opnames cm |}.

(** The module of Scenario A. *)
Definition cm_A : CppModule (list string) :=
  {| graph := ["linear"; "dropout"];
     methods := ["forward"];
     parameters := [("weight", {| requires_grad := true |})];
     opnames := ["aten::dropout"; "aten::linear"] |}.

(** A module with bundled inputs, a frozen parameter, and an operator whose
    name contains both "dropout" and "batch_norm". *)
Definition cm_B : CppModule (list string) :=
  {| graph := ["relu"; "dropout_batch_norm"; "batch_norm"];
     methods := ["forward"; "_generate_bundled_inputs"];
     parameters := [("weight", {| requires_grad := true |});
                    ("bias", {| requires_grad := false |})];
     opnames := ["aten::relu"; "custom::dropout_batch_norm"; "aten::batch_norm"] |}.

Definition store : World Pass (list string) :=
  {| heap :=
       <[DEFAULT_WHITELIST := ODict ∅]>
       (<[2%positive := OScriptModule {| _c := 3%positive |}]>
       (<[3%positive := OCppModule cm_A]>
       (<[4%positive := ODict {[UNRECOGNIZED := true]}]>
       (<[5%positive := ODict ∅]>
       (<[6%positive := OOther "torch.nn.Linear"]>
       (<[7%positive := ODict (<[FUSION := true]> {[LAYOUT_CONVERSION := false]})]>
       (<[8%positive := OScriptModule {| _c := 9%positive |}]>
       (<[9%positive := OCppModule cm_B]> ∅))))))));
     calls := [] |}.

(** The module of Scenario A with its operator names exported in the other
    order, in a store of its own. *)
Definition cm_A_rev : CppModule (list string) :=
  {| graph := ["linear"; "dropout"];
     methods := ["forward"];
     parameters := [("weight", {| requires_grad := true |})];
     opnames := ["aten::linear"; "aten::dropout"] |}.

Definition store_rev : World Pass (list string) :=
  {| heap :=
       <[DEFAULT_WHITELIST := ODict ∅]>
       (<[2%positive := OScriptModule {| _c := 3%positive |}]>
       (<[3%positive := OCppModule cm_A_rev]> ∅));
     calls := [] |}.

(** Three calls in a row: selector omitted, selector given, selector omitted. *)
Definition three_calls : list (value * option value) :=
  [(VRef 2, None); (VRef 8, Some (VRef 7)); (VRef 8, None)].

End Scenario.

(** ** Facts about strings and the lint loops *)

Lemma append_length (s t : string) :
  String.length (s +:+ t) = String.length s + String.length t.
Proof. induction s as [|a s IH]; simpl; [done | by f_equal]. Qed.

(** Cancellation of a common suffix. *)
Lemma append_inj_r (t s1 s2 : string) : s1 +:+ t = s2 +:+ t → s1 = s2.
Proof.
  revert s2. induction s1 as [|a s1 IH]; intros [|b s2] Heq.
  - done.
  - apply (f_equal String.length) in Heq.
    rewrite !append_length in Heq. simpl in Heq. lia.
  - apply (f_equal String.length) in Heq.
    rewrite !append_length in Heq. simpl in Heq. lia.
  - simpl in Heq. injection Heq as -> Heq. f_equal. by apply IH.
Qed.

Lemma requires_grad_message_inj : Inj (=) (=) requires_grad_message.
Proof.
  intros n1 n2 Heq. unfold requires_grad_message in Heq.
  apply (inj (String.append "Param ")) in Heq.
  by apply append_inj_r in Heq.
Qed.

Lemma mk_lint_name c msg : mk_lint c msg !! "name" = Some (VStr (LintCode_name c)).
Proof. reflexivity. Qed.

Lemma mk_lint_message c msg : mk_lint c msg !! "message" = Some (VStr msg).
Proof. reflexivity. Qed.

Lemma mk_lint_dom c msg : dom (mk_lint c msg) = ({["name"; "message"]} : gset string).
Proof. unfold mk_lint. rewrite !dom_insert_L, dom_empty_L. set_solver. Qed.

Lemma lint_param_app lint_list np :
  lint_param lint_list np = lint_list ++ param_lints np.
Proof.
  destruct np as [name param]. unfold lint_param, param_lints. simpl.
  destruct (requires_grad param); [done | by rewrite app_nil_r].
Qed.

Lemma lint_op_app lint_list op_name :
  lint_op lint_list op_name = lint_list ++ op_lints op_name.
Proof.
  unfold lint_op, op_lints.
  destruct (py_in "dropout" op_name), (py_in "batch_norm" op_name);
    simpl; rewrite <- ?app_assoc, ?app_nil_r; done.
Qed.

Lemma fold_lint_param params lint_list :
  fold_left lint_param params lint_list = lint_list ++ flat_map param_lints params.
Proof.
  revert lint_list. induction params as [|np params IH]; intros lint_list; simpl.
  - by rewrite app_nil_r.
  - rewrite IH, lint_param_app, <- app_assoc. done.
Qed.

Lemma fold_lint_op op_names lint_list :
  fold_left lint_op op_names lint_list = lint_list ++ flat_map op_lints op_names.
Proof.
  revert lint_list. induction op_names as [|op op_names IH]; intros lint_list; simpl.
  - by rewrite app_nil_r.
  - rewrite IH, lint_op_app, <- app_assoc. done.
Qed.

Section LintFacts.

Context {PassId : Type} `{Countable PassId} {Graph : Type}.
Implicit Types (w : World PassId Graph) (cm : CppModule Graph).

Lemma lint_run w l cm :
  module_at w l cm →
  generate_mobile_module_lints (VRef l) w =
    (Ok (lints_of cm), {| heap := heap w; calls := calls w ++ lint_calls l |}).
Proof.
  intros (sm & Hl & Hc).
  unfold generate_mobile_module_lints, check_ScriptModule, hasattr,
    named_parameters, export_opnames, cpp_module_of, log, deref,
    mbind, mret, M_bind, M_ret, bind, ret.
  simpl. rewrite Hl, Hc. simpl. rewrite Hc. simpl. rewrite Hc.
  rewrite fold_lint_op, fold_lint_param. unfold lints_of, bundled_lints.
  rewrite <- app_assoc. simpl.
  destruct (bool_decide _); simpl; rewrite <- ?app_assoc; done.
Qed.

Lemma lint_ok_inv w v lints w' :
  generate_mobile_module_lints v w = (Ok lints, w') →
  ∃ l cm, v = VRef l ∧ module_at w l cm ∧ lints = lints_of cm.
Proof.
  intros Hrun.
  destruct v as [| | | | |l];
    try (unfold generate_mobile_module_lints, check_ScriptModule, mbind,
           M_bind, bind in Hrun; simpl in Hrun; discriminate Hrun).
  destruct (heap w !! l) as [o|] eqn:Hl.
  - destruct o as [sm|cm0|d|cls];
      try (unfold generate_mobile_module_lints, check_ScriptModule, mbind,
             M_bind, bind in Hrun; simpl in Hrun; rewrite Hl in Hrun;
           discriminate Hrun).
    destruct (heap w !! _c sm) as [o|] eqn:Hc.
    + destruct o as [sm'|cm|d|cls];
        try (unfold generate_mobile_module_lints, check_ScriptModule, hasattr,
               cpp_module_of, mbind, M_bind, bind in Hrun; simpl in Hrun;
             rewrite Hl in Hrun; simpl in Hrun; rewrite Hc in Hrun;
             discriminate Hrun).
      assert (Hm : module_at w l cm) by (exists sm; done).
      rewrite (lint_run _ _ _ Hm) in Hrun. injection Hrun as <- _.
      exists l, cm. done.
    + unfold generate_mobile_module_lints, check_ScriptModule, hasattr,
        cpp_module_of, mbind, M_bind, bind in Hrun. simpl in Hrun.
      rewrite Hl in Hrun. simpl in Hrun. rewrite Hc in Hrun. discriminate Hrun.
  - unfold generate_mobile_module_lints, check_ScriptModule, mbind,
      M_bind, bind in Hrun. simpl in Hrun. rewrite Hl in Hrun. discriminate Hrun.
Qed.

Lemma elem_of_lints_of cm f :
  f ∈ lints_of cm →
  f = bundled_input_lint ∨
  (∃ name p, (name, p) ∈ parameters cm ∧ requires_grad p = true ∧
             f = requires_grad_lint name) ∨
  (∃ op, op ∈ opnames cm ∧ py_in "dropout" op = true ∧ f = dropout_lint op) ∨
  (∃ op, op ∈ opnames cm ∧ py_in "batch_norm" op = true ∧ f = batchnorm_lint op).
Proof.
  unfold lints_of. rewrite !elem_of_app. intros [Hb|[Hp|Ho]].
  - left. unfold bundled_lints in Hb. destruct (bool_decide _).
    + by apply not_elem_of_nil in Hb.
    + by apply list_elem_of_singleton in Hb.
  - right; left. apply list_elem_of_In, in_flat_map in Hp.
    destruct Hp as ([name p] & Hin & Hf). apply list_elem_of_In in Hin.
    unfold param_lints in Hf. simpl in Hf.
    destruct (requires_grad p) eqn:Hg; [|done].
    destruct Hf as [<-|[]]. by exists name, p.
  - right; right. apply list_elem_of_In, in_flat_map in Ho.
    destruct Ho as (op & Hin & Hf). apply list_elem_of_In in Hin.
    unfold op_lints in Hf. apply in_app_or in Hf. destruct Hf as [Hf|Hf].
    + left. destruct (py_in "dropout" op) eqn:Hd; [|done].
      destruct Hf as [<-|[]]. by exists op.
    + right. destruct (py_in "batch_norm" op) eqn:Hd; [|done].
      destruct Hf as [<-|[]]. by exists op.
Qed.

Lemma requires_grad_finding_for_lint name name' :
  requires_grad_finding_for name (requires_grad_lint name') ↔ name = name'.
Proof.
  unfold requires_grad_finding_for, requires_grad_lint.
  rewrite mk_lint_name, mk_lint_message. split.
  - intros [_ Hmsg]. apply requires_grad_message_inj. congruence.
  - intros ->. split; reflexivity.
Qed.

Lemma filter_param_lints_absent name (params : list (string * Param)) :
  name ∉ params.*1 →
  filter (requires_grad_finding_for name) (flat_map param_lints params) = [].
Proof.
  induction params as [|[n p] params IH]; intros Hnot; simpl; [done|].
  rewrite fmap_cons, not_elem_of_cons in Hnot. destruct Hnot as [Hne Hnot].
  simpl in Hne.
  rewrite filter_app, (IH Hnot), app_nil_r.
  unfold param_lints. simpl. destruct (requires_grad p); [|done].
  apply filter_singleton_False; [exact []|].
  rewrite requires_grad_finding_for_lint. done.
Qed.

Lemma filter_param_lints_present name p (params : list (string * Param)) :
  NoDup params.*1 → (name, p) ∈ params →
  length (filter (requires_grad_finding_for name) (flat_map param_lints params))
  = if requires_grad p then 1 else 0.
Proof.
  induction params as [|[n q] params IH]; intros Hnd Hin.
  - by apply not_elem_of_nil in Hin.
  - rewrite fmap_cons, NoDup_cons in Hnd. destruct Hnd as [Hfresh Hnd].
    simpl in Hfresh. simpl. rewrite filter_app, length_app.
    apply elem_of_cons in Hin. destruct Hin as [Heq|Hin].
    + injection Heq as <- <-.
      rewrite (filter_param_lints_absent _ _ Hfresh), Nat.add_0_r.
      unfold param_lints. simpl. destruct (requires_grad p); [|done].
      rewrite filter_singleton_True; [done|exact []|].
      by apply requires_grad_finding_for_lint.
    + rewrite (IH Hnd Hin).
      assert (Hne : name ≠ n).
      { intros ->. apply Hfresh. apply list_elem_of_fmap. by exists (n, p). }
      unfold param_lints at 1. simpl. destruct (requires_grad q); [|done].
      rewrite filter_singleton_False; [done|exact []|].
      by rewrite requires_grad_finding_for_lint.
Qed.

Lemma filter_op_lints name (ops : list string) :
  filter (requires_grad_finding_for name) (flat_map op_lints ops) = [].
Proof.
  induction ops as [|op ops IH]; simpl; [done|].
  rewrite filter_app, IH, app_nil_r. unfold op_lints. rewrite filter_app.
  destruct (py_in "dropout" op), (py_in "batch_norm" op); simpl;
    rewrite ?filter_nil; try done;
    rewrite ?filter_singleton_False; try done; try exact [];
    intros [Hn _]; discriminate Hn.
Qed.

Lemma filter_bundled_lints name cm :
  filter (requires_grad_finding_for name) (bundled_lints cm) = [].
Proof.
  unfold bundled_lints. destruct (bool_decide _); [done|].
  apply filter_singleton_False; [exact []|]. intros [Hn _]. discriminate Hn.
Qed.

End LintFacts.

(** ** The lint: what it returns *)

Section LintClaims.

Context {PassId : Type} `{Countable PassId} {Graph : Type}.
Implicit Types (w : World PassId Graph) (cm : CppModule Graph).

(** C1 (Scenario A): for a module with no bundled-input support, the single
    parameter "weight" with [requires_grad] true, and the operator set
    {"aten::dropout", "aten::linear"} in either iteration order, the lint
    returns exactly three findings, in this order: the BUNDLED_INPUT finding,
    the REQUIRES_GRAD finding naming "weight", the DROPOUT finding naming
    "aten::dropout". *)
Theorem lint_scenario_A w l cm p :
  module_at w l cm →
  "_generate_bundled_inputs" ∉ methods cm →
  parameters cm = [("weight", p)] →
  requires_grad p = true →
  opnames cm ≡ₚ ["aten::dropout"; "aten::linear"] →
  (generate_mobile_module_lints (VRef l) w).1 =
    Ok [mk_lint BUNDLED_INPUT bundled_input_message;
        mk_lint REQUIRES_GRAD (requires_grad_message "weight");
        mk_lint DROPOUT (dropout_message "aten::dropout")].
Proof.
  intros Hm Hb Hp Hg Hops. rewrite (lint_run _ _ _ Hm). simpl. f_equal.
  unfold lints_of, bundled_lints. rewrite bool_decide_eq_false_2 by done.
  rewrite Hp. simpl. unfold param_lints at 1. simpl. rewrite Hg. simpl.
  symmetry in Hops. apply Permutation_length_2_inv in Hops.
  destruct Hops as [-> | ->]; reflexivity.
Qed.

(** C4: the lint of a module whose parameter names are pairwise distinct holds,
    for every named parameter with [requires_grad] true, exactly one
    REQUIRES_GRAD finding whose message names that parameter, and none for a
    parameter with [requires_grad] false; and every REQUIRES_GRAD finding in
    it names a parameter of the module whose flag is true. *)
Theorem lint_requires_grad_findings w l cm :
  module_at w l cm →
  NoDup (parameters cm).*1 →
  ∃ lints w',
    generate_mobile_module_lints (VRef l) w = (Ok lints, w') ∧
    (∀ name p, (name, p) ∈ parameters cm →
       length (filter (requires_grad_finding_for name) lints) =
         if requires_grad p then 1 else 0) ∧
    (∀ f, f ∈ lints →
       f !! "name" = Some (VStr (LintCode_name REQUIRES_GRAD)) →
       ∃ name p, (name, p) ∈ parameters cm ∧ requires_grad p = true ∧
                 requires_grad_finding_for name f).
Proof.
  intros Hm Hnd. eexists _, _. split; [apply (lint_run _ _ _ Hm)|]. split.
  - intros name p Hin. unfold lints_of.
    rewrite !filter_app, !length_app, filter_bundled_lints, filter_op_lints.
    simpl. rewrite Nat.add_0_r. by apply filter_param_lints_present.
  - intros f Hf Hname. apply elem_of_lints_of in Hf.
    destruct Hf as [->|[(name & p & Hin & Hg & ->)|[(op & _ & _ & ->)|(op & _ & _ & ->)]]];
      try discriminate Hname.
    exists name, p. split; [done|]. split; [done|].
    by apply requires_grad_finding_for_lint.
Qed.

(** C8, as the code has it: every finding the lint returns is a dict with
    exactly the two keys "name" and "message"; under "name" it holds the name
    of a member of LintCode, a string, and under "message" a string. *)
Theorem lint_finding_shape w v lints w' :
  generate_mobile_module_lints v w = (Ok lints, w') →
  ∀ f, f ∈ lints →
    ∃ (c : LintCode) (msg : string),
      dom f = ({["name"; "message"]} : gset string) ∧
      f !! "name" = Some (VStr (LintCode_name c)) ∧
      f !! "message" = Some (VStr msg).
Proof.
  intros Hrun f Hf. apply lint_ok_inv in Hrun.
  destruct Hrun as (l & cm & -> & Hm & ->). apply elem_of_lints_of in Hf.
  destruct Hf as [->|[(name & p & _ & _ & ->)|[(op & _ & _ & ->)|(op & _ & _ & ->)]]];
    eexists _, _; (split; [apply mk_lint_dom|]);
    (split; [apply mk_lint_name | apply mk_lint_message]).
Qed.

(** C10: the operator names are scanned once, dropout before batch_norm for
    each name. For a name that contains both substrings the loop body appends
    two findings, DROPOUT then BATCHNORM; in the list the lint returns they
    are adjacent, right after everything found up to that name and right
    before the findings of the names that follow. *)
Theorem lint_dropout_then_batchnorm w l cm before op after :
  module_at w l cm →
  opnames cm = before ++ op :: after →
  py_in "dropout" op = true →
  py_in "batch_norm" op = true →
  (∀ lint_list,
     lint_op lint_list op = lint_list ++ [dropout_lint op; batchnorm_lint op]) ∧
  (generate_mobile_module_lints (VRef l) w).1 =
    Ok (fold_left lint_op before
          (fold_left lint_param (parameters cm) (bundled_lints cm))
        ++ [dropout_lint op; batchnorm_lint op]
        ++ fold_left lint_op after []).
Proof.
  intros Hm Hops Hd Hb.
  assert (Hop : ∀ lint_list,
    lint_op lint_list op = lint_list ++ [dropout_lint op; batchnorm_lint op]).
  { intros lint_list. unfold lint_op. rewrite Hd, Hb, <- app_assoc. done. }
  split; [exact Hop|].
  rewrite (lint_run _ _ _ Hm). simpl. f_equal. unfold lints_of.
  rewrite Hops, flat_map_app. simpl.
  rewrite !fold_lint_op, fold_lint_param, <- !app_assoc. simpl.
  do 3 f_equal. unfold op_lints at 1. rewrite Hd, Hb. done.
Qed.

End LintClaims.

(** ** The store across a call *)

Section Frame.

Context {PassId : Type} `{Countable PassId} {Graph : Type}.
Implicit Types (w : World PassId Graph) (cm : CppModule Graph).

Lemma preserving_ret {A} (a : A) : preserving PassId Graph (mret a).
Proof. intros w r w' [= <- <-]. done. Qed.

Lemma preserving_raise {A} e : preserving PassId Graph (raise (A := A) e).
Proof. intros w r w' [= <- <-]. done. Qed.

Lemma preserving_bind {A B} (m : M A) (f : A → M B) :
  preserving PassId Graph m → (∀ a, preserving PassId Graph (f a)) →
  preserving PassId Graph (m ≫= f).
Proof.
  intros Hm Hf w r w' Hrun. unfold mbind, M_bind, bind in Hrun.
  destruct (m w) as [[a|e] w1] eqn:Hmw.
  - etrans; [by eapply Hm | by eapply Hf].
  - injection Hrun as <- <-. by eapply Hm.
Qed.

Lemma preserving_log c : preserving PassId Graph (log c).
Proof. intros w r w' [= <- <-]. done. Qed.

Lemma fresh_loc_free w : heap w !! fresh (dom (heap w)) = None.
Proof. apply not_elem_of_dom, is_fresh. Qed.

Lemma preserving_alloc o : preserving PassId Graph (alloc o).
Proof.
  intros w r w' [= <- <-]. simpl. apply insert_subseteq, fresh_loc_free.
Qed.

Lemma preserving_check_ScriptModule v : preserving PassId Graph (check_ScriptModule v).
Proof.
  intros w r w' Hrun. unfold check_ScriptModule in Hrun.
  destruct (deref w v) as [[]|]; injection Hrun as <- <-; done.
Qed.

Lemma preserving_cpp_module_of v : preserving PassId Graph (cpp_module_of v).
Proof.
  intros w r w' Hrun. unfold cpp_module_of in Hrun.
  destruct (deref w v) as [[]|]; injection Hrun as <- <-; done.
Qed.

Lemma preserving_dict_of v : preserving PassId Graph (dict_of v).
Proof.
  intros w r w' Hrun. unfold dict_of in Hrun.
  destruct (deref w v) as [[]|]; injection Hrun as <- <-; done.
Qed.

(** The wrapper writes to no object: with callees that leave the store's
    objects alone, so does the call. *)
Lemma preserving_optimize_for_mobile engine wrap v sel :
  (∀ c s, preserving PassId Graph (engine c s)) →
  (∀ c, preserving PassId Graph (wrap c)) →
  preserving PassId Graph (optimize_for_mobile engine wrap v sel).
Proof.
  intros Hengine Hwrap. unfold optimize_for_mobile.
  apply preserving_bind; [apply preserving_check_ScriptModule|]. intros sm.
  apply preserving_bind.
  - apply preserving_bind; [apply preserving_log | intros _; apply Hengine].
  - intros c. apply preserving_bind; [apply preserving_log | intros _; apply Hwrap].
Qed.

Section Linked.

Variable known_passes : list PassId.
Variable run_pass : PassId → CppModule Graph → CppModule Graph.

Lemma preserving_spec_engine c s :
  preserving PassId Graph (spec_jit_pass_optimize_for_mobile known_passes run_pass c s).
Proof.
  unfold spec_jit_pass_optimize_for_mobile.
  apply preserving_bind; [apply preserving_cpp_module_of|]. intros cm.
  apply preserving_bind; [apply preserving_dict_of|]. intros d.
  apply preserving_alloc.
Qed.

Lemma preserving_spec_wrap c : preserving PassId Graph (spec_wrap_cpp_module c).
Proof.
  unfold spec_wrap_cpp_module. destruct c; try apply preserving_raise.
  apply preserving_bind; [apply preserving_cpp_module_of|]. intros _.
  apply preserving_alloc.
Qed.

Lemma preserving_linked v sel :
  preserving PassId Graph (optimize_for_mobile_linked known_passes run_pass v sel).
Proof.
  apply preserving_optimize_for_mobile;
    [apply preserving_spec_engine | apply preserving_spec_wrap].
Qed.

Lemma module_at_weaken w w' l cm :
  heap w ⊆ heap w' → module_at w l cm → module_at w' l cm.
Proof.
  intros Hsub (sm & Hl & Hc). exists sm.
  split; eapply lookup_weaken; eauto.
Qed.

Lemma selector_at_weaken w w' sel d :
  heap w ⊆ heap w' → selector_at w sel d → selector_at w' sel d.
Proof.
  unfold selector_at, deref. intros Hsub Hd.
  destruct (default _ sel); try done. by eapply lookup_weaken.
Qed.

(** The linked call on a module and a dictionary: it returns a new
    ScriptModule around a new C++ module, the engine's output. *)
Lemma linked_run w l cm sel d :
  module_at w l cm → selector_at w sel d →
  ∃ l1 l2 w',
    optimize_for_mobile_linked known_passes run_pass (VRef l) sel w
      = (Ok (VRef l2), w') ∧
    heap w !! l1 = None ∧ heap w !! l2 = None ∧ l1 ≠ l2 ∧
    heap w' = <[l2 := OScriptModule {| _c := l1 |}]>
                (<[l1 := OCppModule (apply_passes known_passes run_pass d cm)]>
                   (heap w)) ∧
    l1 = fresh (dom (heap w)) ∧
    l2 = fresh (dom (<[l1 := OCppModule (apply_passes known_passes run_pass d cm)]>
                       (heap w))).
Proof.
  intros (sm & Hl & Hc) Hd. unfold selector_at, deref in Hd.
  destruct (default (VRef DEFAULT_WHITELIST) sel) as [| | | | |ls] eqn:Hsel;
    try discriminate Hd.
  set (out := OCppModule (apply_passes known_passes run_pass d cm)).
  set (l1 := fresh (dom (heap w))).
  set (l2 := fresh (dom (<[l1 := out]> (heap w)))).
  assert (Hl1 : heap w !! l1 = None) by apply fresh_loc_free.
  assert (Hl2 : <[l1 := out]> (heap w) !! l2 = None)
    by apply not_elem_of_dom, is_fresh.
  assert (Hne : l1 ≠ l2).
  { intros Heq. rewrite <- Heq, lookup_insert_eq in Hl2. discriminate Hl2. }
  exists l1, l2. eexists.
  split; [|split; [done|split; [|split; [done|split; [|done]]]]].
  - unfold optimize_for_mobile_linked, optimize_for_mobile,
      spec_jit_pass_optimize_for_mobile, spec_wrap_cpp_module,
      check_ScriptModule, cpp_module_of, dict_of, alloc, log,
      mbind, M_bind, bind.
    rewrite Hsel. simpl. rewrite Hl. simpl. rewrite Hc. simpl. rewrite Hd. simpl.
    fold out. fold l1. rewrite lookup_insert_eq. simpl. fold l2. reflexivity.
  - rewrite lookup_insert_ne in Hl2 by done. exact Hl2.
  - reflexivity.
Qed.

Lemma linked_run_module w l cm sel d :
  module_at w l cm → selector_at w sel d →
  ∃ l2 w',
    optimize_for_mobile_linked known_passes run_pass (VRef l) sel w
      = (Ok (VRef l2), w') ∧
    heap w !! l2 = None ∧ heap w ⊆ heap w' ∧
    module_at w' l2 (apply_passes known_passes run_pass d cm) ∧
    ∃ l1, heap w !! l1 = None ∧
          heap w' !! l2 = Some (OScriptModule {| _c := l1 |}).
Proof.
  intros Hm Hd.
  destruct (linked_run _ _ _ _ _ Hm Hd)
    as (l1 & l2 & w' & Hrun & Hl1 & Hl2 & Hne & Hheap & _ & _).
  exists l2, w'. split; [done|]. split; [done|]. split; [|split].
  - by eapply preserving_linked.
  - eexists. rewrite Hheap. split; [apply lookup_insert_eq|]. simpl.
    rewrite lookup_insert_ne by done. apply lookup_insert_eq.
  - exists l1. split; [done|]. rewrite Hheap. apply lookup_insert_eq.
Qed.

Lemma pass_enabled_empty (p : PassId) : pass_enabled ∅ p = true.
Proof. unfold pass_enabled. by rewrite bool_decide_eq_true_2. Qed.

Lemma apply_passes_empty cm :
  apply_passes known_passes run_pass ∅ cm = run_all_passes known_passes run_pass cm.
Proof.
  unfold apply_passes, run_all_passes. revert cm.
  induction known_passes as [|p ps IH]; intros cm; simpl; [done|].
  rewrite pass_enabled_empty. apply IH.
Qed.

Lemma optimize_each_preserving args w :
  heap w ⊆ heap (optimize_each known_passes run_pass args w).2.
Proof.
  revert w. induction args as [|[v sel] args IH]; intros w; simpl; [done|].
  destruct (optimize_for_mobile_linked _ _ v sel w) as [r w1] eqn:H1.
  specialize (IH w1).
  destruct (optimize_each known_passes run_pass args w1) as [rs' w2] eqn:H2.
  simpl in *. etrans; [by eapply preserving_linked | exact IH].
Qed.

End Linked.

End Frame.

(** ** The wrapper: what it checks and what it hands on *)

Section WrapperClaims.

Context {PassId : Type} `{Countable PassId} {Graph : Type}.
Implicit Types (w : World PassId Graph) (cm : CppModule Graph).

Variable engine : value → value → M (PassId := PassId) (Graph := Graph) value.
Variable wrap : value → M (PassId := PassId) (Graph := Graph) value.

Lemma check_ScriptModule_refuses w v :
  isinstance_ScriptModule w v = false →
  check_ScriptModule v w =
    (Raise (TypeError ("Got " +:+ type_str w v +:+ ", but ScriptModule is expected.")), w).
Proof.
  unfold isinstance_ScriptModule, check_ScriptModule.
  destruct (deref w v) as [[]|]; done.
Qed.

(** C2: on an input that is no ScriptModule both functions raise TypeError,
    whatever the engine and the wrapping API are, and the store after the
    call is the store before it: no object changed, nothing allocated, no
    call made to the engine, the wrapping API or the introspection API. *)
Theorem non_module_input_raises_TypeError w v sel :
  isinstance_ScriptModule w v = false →
  optimize_for_mobile engine wrap v sel w =
    (Raise (TypeError ("Got " +:+ type_str w v +:+ ", but ScriptModule is expected.")), w) ∧
  generate_mobile_module_lints v w =
    (Raise (TypeError ("Got " +:+ type_str w v +:+ ", but ScriptModule is expected.")), w).
Proof.
  intros Hv. split.
  - unfold optimize_for_mobile, mbind, M_bind, bind.
    by rewrite (check_ScriptModule_refuses _ _ Hv).
  - unfold generate_mobile_module_lints, mbind, M_bind, bind.
    by rewrite (check_ScriptModule_refuses _ _ Hv).
Qed.

(** C3, as the code has it: the wrapper looks at no pass identifier. On a
    ScriptModule it calls the engine with the selector as it was given; when
    the engine raises, the call raises that error, and when the engine
    returns, the call is the wrapping API's on the engine's result. *)
Theorem optimize_for_mobile_delegates_selector w l sm sel :
  heap w !! l = Some (OScriptModule sm) →
  let whitelist := default (VRef DEFAULT_WHITELIST) sel in
  let w1 := {| heap := heap w;
               calls := calls w ++
                 [Call_jit_pass_optimize_for_mobile (VRef (_c sm)) whitelist] |} in
  match engine (VRef (_c sm)) whitelist w1 with
  | (Raise e, w2) =>
      optimize_for_mobile engine wrap (VRef l) sel w = (Raise e, w2)
  | (Ok c, w2) =>
      optimize_for_mobile engine wrap (VRef l) sel w =
        wrap c {| heap := heap w2;
                  calls := calls w2 ++ [Call_wrap_cpp_module c] |}
  end.
Proof.
  intros Hl whitelist w1.
  unfold optimize_for_mobile, check_ScriptModule, log, mbind, M_bind, bind.
  simpl. rewrite Hl. fold whitelist. fold w1.
  destruct (engine (VRef (_c sm)) whitelist w1) as [[c|e] w2]; done.
Qed.

End WrapperClaims.

(** ** The wrapper linked against the engine of the spec *)

Section LinkedClaims.

Context {PassId : Type} `{Countable PassId} {Graph : Type}.
Implicit Types (w : World PassId Graph) (cm : CppModule Graph).

Variable known_passes : list PassId.
Variable run_pass : PassId → CppModule Graph → CppModule Graph.

Local Abbreviation optimize := (optimize_for_mobile_linked known_passes run_pass).

(** C5: a call on a module and a dictionary returns, and when it has
    returned the module it was given holds the same C++ module as before
    (graph, parameters, operator names), every object of the store is as it
    was, and the value returned is a ScriptModule at a location that was free
    before the call, around a C++ module at another location that was free: a
    new module, not the input. *)
Theorem optimize_leaves_input_unchanged w l cm sel d :
  module_at w l cm →
  selector_at w sel d →
  ∃ l' w',
    optimize (VRef l) sel w = (Ok (VRef l'), w') ∧
    module_at w' l cm ∧
    (∀ l0 o, heap w !! l0 = Some o → heap w' !! l0 = Some o) ∧
    l' ≠ l ∧ heap w !! l' = None ∧
    ∃ l1, heap w !! l1 = None ∧
          heap w' !! l' = Some (OScriptModule {| _c := l1 |}).
Proof.
  intros Hm Hd.
  destruct (linked_run_module known_passes run_pass _ _ _ _ _ Hm Hd)
    as (l' & w' & Hrun & Hfree & Hsub & _ & Hnew).
  exists l', w'. split; [done|].
  split; [by eapply module_at_weaken|].
  split; [intros l0 o Hl0; by eapply lookup_weaken|].
  split; [|done].
  intros ->. destruct Hm as (sm & Hl & _). congruence.
Qed.

(** C6: while the default dictionary is as the [def] statement built it,
    empty, a call that omits the selector and a call that passes an empty
    dictionary both return, and both return a module that holds the input
    with every known pass applied, in the engine's order. *)
Theorem omitted_selector_is_empty_selector w l cm le :
  module_at w l cm →
  heap w !! DEFAULT_WHITELIST = Some (ODict ∅) →
  heap w !! le = Some (ODict ∅) →
  ∃ l1 w1 l2 w2,
    optimize (VRef l) None w = (Ok (VRef l1), w1) ∧
    optimize (VRef l) (Some (VRef le)) w = (Ok (VRef l2), w2) ∧
    module_at w1 l1 (run_all_passes known_passes run_pass cm) ∧
    module_at w2 l2 (run_all_passes known_passes run_pass cm) ∧
    l1 = l2 ∧ heap w1 = heap w2.
Proof.
  intros Hm Hdef Hle.
  destruct (linked_run known_passes run_pass w l cm None ∅ Hm Hdef)
    as (a1 & a2 & w1 & Hrun1 & _ & _ & _ & Hheap1 & Ha1 & Ha2).
  destruct (linked_run known_passes run_pass w l cm (Some (VRef le)) ∅ Hm Hle)
    as (b1 & b2 & w2 & Hrun2 & _ & _ & _ & Hheap2 & Hb1 & Hb2).
  destruct (linked_run_module known_passes run_pass w l cm None ∅ Hm Hdef)
    as (l1 & w1' & Hrun1' & _ & _ & Hm1 & _).
  destruct (linked_run_module known_passes run_pass w l cm (Some (VRef le)) ∅ Hm Hle)
    as (l2 & w2' & Hrun2' & _ & _ & Hm2 & _).
  rewrite Hrun1 in Hrun1'. injection Hrun1' as <- <-.
  rewrite Hrun2 in Hrun2'. injection Hrun2' as <- <-.
  rewrite apply_passes_empty in Hm1, Hm2.
  exists a2, w1, b2, w2. do 4 (split; [done|]).
  assert (a1 = b1) as <- by congruence.
  assert (a2 = b2) as <- by congruence.
  split; [done | congruence].
Qed.

(** C7: two calls with the same module and the same selector, the second made
    after the first, both return; they return two different objects that hold
    the same C++ module, the engine's passes applied to the input as the
    selector's entries say, so the same graph. *)
Theorem optimize_twice_same_graph w l cm sel d :
  module_at w l cm →
  selector_at w sel d →
  ∃ l1 w1 l2 w2 cm',
    optimize (VRef l) sel w = (Ok (VRef l1), w1) ∧
    optimize (VRef l) sel w1 = (Ok (VRef l2), w2) ∧
    l1 ≠ l2 ∧
    module_at w2 l1 cm' ∧ module_at w2 l2 cm' ∧
    cm' = apply_passes known_passes run_pass d cm.
Proof.
  intros Hm Hd.
  destruct (linked_run_module known_passes run_pass _ _ _ _ _ Hm Hd)
    as (l1 & w1 & Hrun1 & _ & Hsub1 & Hm1 & _).
  assert (Hm' : module_at w1 l cm) by (by eapply module_at_weaken).
  assert (Hd' : selector_at w1 sel d) by (by eapply selector_at_weaken).
  destruct (linked_run_module known_passes run_pass _ _ _ _ _ Hm' Hd')
    as (l2 & w2 & Hrun2 & Hfree2 & Hsub2 & Hm2 & _).
  exists l1, w1, l2, w2, (apply_passes known_passes run_pass d cm).
  split; [done|]. split; [done|]. split; [|split; [|done]].
  - intros ->. destruct Hm1 as (sm1 & Hl1 & _). congruence.
  - by eapply module_at_weaken.
Qed.

(** C9: over any sequence of calls, each with a selector or none, every
    dictionary of the store has the same entries at the end as at the start,
    the caller's selectors and the shared default among them; and when the
    default is empty at the start, every call of the sequence that omits the
    selector returns its module with every known pass applied. *)
Theorem optimize_never_mutates_selector args w :
  (∀ ls d, heap w !! ls = Some (ODict d) →
     heap (optimize_each known_passes run_pass args w).2 !! ls = Some (ODict d)) ∧
  (heap w !! DEFAULT_WHITELIST = Some (ODict ∅) →
   ∀ i l cm, args !! i = Some (VRef l, None) → module_at w l cm →
     ∃ l', (optimize_each known_passes run_pass args w).1 !! i
             = Some (Ok (VRef l')) ∧
           module_at (optimize_each known_passes run_pass args w).2 l'
             (run_all_passes known_passes run_pass cm)).
Proof.
  split.
  { intros ls d Hls. eapply lookup_weaken; [exact Hls|].
    apply optimize_each_preserving. }
  revert w. induction args as [|[v sel] args IH]; intros w Hdef i l cm Hi Hm.
  { by rewrite lookup_nil in Hi. }
  pose proof (optimize_each_preserving known_passes run_pass args) as Hrest.
  simpl.
  destruct (optimize v sel w) as [r w1] eqn:H1.
  assert (Hsub1 : heap w ⊆ heap w1) by (by eapply preserving_linked).
  specialize (IH w1). specialize (Hrest w1).
  destruct (optimize_each known_passes run_pass args w1) as [rs' w2] eqn:H2.
  simpl in *. destruct i as [|i]; simpl in Hi.
  - injection Hi as -> ->.
    destruct (linked_run_module known_passes run_pass w l cm None ∅ Hm Hdef)
      as (l' & w1' & Hrun' & _ & _ & Hm' & _).
    rewrite H1 in Hrun'. injection Hrun' as -> <-.
    exists l'. split; [done|]. rewrite <- apply_passes_empty.
    by eapply module_at_weaken.
  - eapply IH; [by eapply lookup_weaken | exact Hi |].
    by eapply module_at_weaken.
Qed.

End LinkedClaims.

(** ** More about the lint: substrings, membership, counts, order *)

Lemma prefix_app (sub s : string) :
  String.prefix sub s = true ↔ ∃ post, s = sub +:+ post.
Proof.
  revert s. induction sub as [|a sub IH]; intros s.
  - split; [intros _; by exists s | by destruct s].
  - destruct s as [|b s]; simpl.
    + split; [done | intros [post Hpost]; discriminate Hpost].
    + destruct (Ascii.ascii_dec a b) as [->|Hne].
      * rewrite IH. split.
        -- intros [post ->]. by exists post.
        -- intros [post Hpost]. injection Hpost as ->. by exists post.
      * split; [done|]. intros [post Hpost]. injection Hpost as -> _. done.
Qed.

(** [sub in s] holds exactly when [s] is some text, then [sub], then some
    text. *)
Lemma py_in_app (sub s : string) :
  py_in sub s = true ↔ ∃ pre post, s = pre +:+ sub +:+ post.
Proof.
  induction s as [|a s IH].
  - change (py_in sub "") with (String.prefix sub "" || false).
    rewrite orb_false_r, prefix_app. split.
    + intros [post Hpost]. by exists "", post.
    + intros (pre & post & Hs). destruct pre as [|b pre]; [|discriminate Hs].
      by exists post.
  - change (py_in sub (String a s))
      with (String.prefix sub (String a s) || py_in sub s).
    rewrite orb_true_iff, IH, prefix_app. split.
    + intros [[post Hpost]|(pre & post & ->)].
      * by exists "", post.
      * by exists (String a pre), post.
    + intros (pre & post & Hs). destruct pre as [|b pre].
      * left. by exists post.
      * right. injection Hs as -> ->. by exists pre, post.
Qed.

Lemma dropout_message_inj : Inj (=) (=) dropout_message.
Proof.
  intros n1 n2 Heq. unfold dropout_message in Heq.
  apply (inj (String.append "Operator ")) in Heq.
  by apply append_inj_r in Heq.
Qed.

Lemma batchnorm_message_inj : Inj (=) (=) batchnorm_message.
Proof.
  intros n1 n2 Heq. unfold batchnorm_message in Heq.
  apply (inj (String.append "Operator ")) in Heq.
  by apply append_inj_r in Heq.
Qed.

Lemma LintCode_name_inj : Inj (=) (=) LintCode_name.
Proof. intros [] [] Heq; (done || discriminate Heq). Qed.

Lemma LintCode_value_inj : Inj (=) (=) LintCode_value.
Proof. intros [] [] Heq; (done || discriminate Heq). Qed.

Lemma mk_lint_inj c1 msg1 c2 msg2 :
  mk_lint c1 msg1 = mk_lint c2 msg2 → c1 = c2 ∧ msg1 = msg2.
Proof.
  intros Heq. split.
  - apply LintCode_name_inj.
    apply (f_equal (λ f : Finding, f !! "name")) in Heq.
    rewrite !mk_lint_name in Heq. congruence.
  - apply (f_equal (λ f : Finding, f !! "message")) in Heq.
    rewrite !mk_lint_message in Heq. congruence.
Qed.

Lemma elem_of_param_lints (f : Finding) (params : list (string * Param)) :
  f ∈ flat_map param_lints params ↔
  ∃ name p, (name, p) ∈ params ∧ requires_grad p = true ∧
            f = requires_grad_lint name.
Proof.
  rewrite list_elem_of_In, in_flat_map. split.
  - intros ([name p] & Hin & Hf). apply list_elem_of_In in Hin.
    unfold param_lints in Hf. simpl in Hf.
    destruct (requires_grad p) eqn:Hg; [|done].
    destruct Hf as [<-|[]]. by exists name, p.
  - intros (name & p & Hin & Hg & ->). exists (name, p).
    split; [by apply list_elem_of_In|].
    unfold param_lints. simpl. rewrite Hg. by left.
Qed.

Lemma elem_of_op_lints (f : Finding) (op : string) :
  f ∈ op_lints op ↔
  (py_in "dropout" op = true ∧ f = dropout_lint op) ∨
  (py_in "batch_norm" op = true ∧ f = batchnorm_lint op).
Proof.
  unfold op_lints. rewrite elem_of_app.
  destruct (py_in "dropout" op), (py_in "batch_norm" op);
    rewrite ?list_elem_of_singleton, ?elem_of_nil; split;
    (intros [Hf|Hf]; [try (by left) | try (by right)]);
    try done; destruct Hf as [Hf' Hf]; try discriminate Hf'; tauto.
Qed.

Lemma elem_of_flat_op_lints (f : Finding) (ops : list string) :
  f ∈ flat_map op_lints ops ↔ ∃ op, op ∈ ops ∧ f ∈ op_lints op.
Proof.
  rewrite list_elem_of_In, in_flat_map. split.
  - intros (op & Hin & Hf). exists op. by rewrite !list_elem_of_In.
  - intros (op & Hin & Hf). exists op. by rewrite <- !list_elem_of_In.
Qed.

Section LintMore.

Context {PassId : Type} `{Countable PassId} {Graph : Type}.
Implicit Types (w : World PassId Graph) (cm : CppModule Graph).

(** X1: the lint reads and never writes. Whatever it is given, the objects of
    the store are the same after the call; when it raises it has called
    nothing, and when it returns it has called [named_parameters] and then
    [export_opnames], once each, and nothing else. *)
Theorem lint_is_read_only w v :
  heap (generate_mobile_module_lints v w).2 = heap w ∧
  ((∃ e, (generate_mobile_module_lints v w).1 = Raise e ∧
         calls (generate_mobile_module_lints v w).2 = calls w) ∨
   (∃ lints, (generate_mobile_module_lints v w).1 = Ok lints ∧
             calls (generate_mobile_module_lints v w).2 =
               calls w ++ [Call_named_parameters v; Call_export_opnames v])).
Proof.
  destruct (deref w v) as [o|] eqn:Hv.
  - destruct o as [sm|cm0|d|cls];
      try (unfold generate_mobile_module_lints, check_ScriptModule, mbind,
             M_bind, bind; rewrite Hv; simpl; split; [done|]; left; eauto).
    destruct v as [| | | | |l]; try discriminate Hv. simpl in Hv.
    destruct (heap w !! _c sm) as [o|] eqn:Hc.
    + destruct o as [sm'|cm|d|cls];
        try (unfold generate_mobile_module_lints, check_ScriptModule, hasattr,
               cpp_module_of, mbind, M_bind, bind; simpl; rewrite Hv; simpl;
             rewrite Hc; simpl; split; [done|]; left; eauto).
      assert (Hm : module_at w l cm) by (exists sm; done).
      rewrite (lint_run _ _ _ Hm). simpl. split; [done|]. right. eauto.
    + unfold generate_mobile_module_lints, check_ScriptModule, hasattr,
        cpp_module_of, mbind, M_bind, bind. simpl. rewrite Hv. simpl.
      rewrite Hc. simpl. split; [done|]. left. eauto.
  - unfold generate_mobile_module_lints, check_ScriptModule, mbind,
      M_bind, bind. rewrite Hv. simpl. split; [done|]. left. eauto.
Qed.

(** X2: on a store in which a ScriptModule wraps a C++ module, the only
    exception the lint raises is the TypeError of its first statement: a call
    that raises was given something that is no ScriptModule, and left the
    store as it was. *)
Theorem lint_raises_only_TypeError w v e w' :
  (∀ l sm, v = VRef l → heap w !! l = Some (OScriptModule sm) →
           ∃ cm, heap w !! _c sm = Some (OCppModule cm)) →
  generate_mobile_module_lints v w = (Raise e, w') →
  isinstance_ScriptModule w v = false ∧
  e = TypeError ("Got " +:+ type_str w v +:+ ", but ScriptModule is expected.") ∧
  w' = w.
Proof.
  intros Hwf Hrun.
  destruct (isinstance_ScriptModule w v) eqn:Hinst.
  - unfold isinstance_ScriptModule in Hinst.
    destruct v as [| | | | |l]; try discriminate Hinst. simpl in Hinst.
    destruct (heap w !! l) as [[sm| | |]|] eqn:Hl; try discriminate Hinst.
    destruct (Hwf l sm eq_refl Hl) as [cm Hc].
    assert (Hm : module_at w l cm) by (exists sm; done).
    rewrite (lint_run _ _ _ Hm) in Hrun. discriminate Hrun.
  - unfold generate_mobile_module_lints, mbind, M_bind, bind in Hrun.
    rewrite (check_ScriptModule_refuses _ _ Hinst) in Hrun.
    injection Hrun as <- <-. done.
Qed.

(** X3: the operator checks are substring tests. The lint of a module holds
    the DROPOUT finding for an operator name exactly when the name is among
    the exported names and reads as some text, "dropout", some text; and the
    BATCHNORM finding exactly when it is among them and reads as some text,
    "batch_norm", some text. *)
Theorem lint_operator_findings_iff_substring w l cm :
  module_at w l cm →
  ∃ lints w',
    generate_mobile_module_lints (VRef l) w = (Ok lints, w') ∧
    (∀ op, dropout_lint op ∈ lints ↔
           op ∈ opnames cm ∧ ∃ pre post, op = pre +:+ "dropout" +:+ post) ∧
    (∀ op, batchnorm_lint op ∈ lints ↔
           op ∈ opnames cm ∧ ∃ pre post, op = pre +:+ "batch_norm" +:+ post).
Proof.
  intros Hm. eexists _, _. split; [apply (lint_run _ _ _ Hm)|].
  unfold lints_of. split; intros op; rewrite <- py_in_app, !elem_of_app,
    elem_of_param_lints, elem_of_flat_op_lints; split.
  - intros [Hb|[(name & p & _ & _ & Heq)|(op' & Hin & Hf)]].
    + unfold bundled_lints in Hb. destruct (bool_decide _).
      * by apply elem_of_nil in Hb.
      * apply list_elem_of_singleton, mk_lint_inj in Hb. by destruct Hb.
    + apply mk_lint_inj in Heq. by destruct Heq.
    + apply elem_of_op_lints in Hf. destruct Hf as [[Hd Heq]|[_ Heq]].
      * apply mk_lint_inj in Heq. destruct Heq as [_ Heq].
        apply dropout_message_inj in Heq. by subst.
      * apply mk_lint_inj in Heq. by destruct Heq.
  - intros [Hin Hd]. right; right. exists op. split; [done|].
    apply elem_of_op_lints. by left.
  - intros [Hb|[(name & p & _ & _ & Heq)|(op' & Hin & Hf)]].
    + unfold bundled_lints in Hb. destruct (bool_decide _).
      * by apply elem_of_nil in Hb.
      * apply list_elem_of_singleton, mk_lint_inj in Hb. by destruct Hb.
    + apply mk_lint_inj in Heq. by destruct Heq.
    + apply elem_of_op_lints in Hf. destruct Hf as [[_ Heq]|[Hd Heq]].
      * apply mk_lint_inj in Heq. by destruct Heq.
      * apply mk_lint_inj in Heq. destruct Heq as [_ Heq].
        apply batchnorm_message_inj in Heq. by subst.
  - intros [Hin Hd]. right; right. exists op. split; [done|].
    apply elem_of_op_lints. by right.
Qed.

Lemma has_code_mk_lint c c' msg : has_code c (mk_lint c' msg) ↔ c = c'.
Proof.
  unfold has_code. rewrite mk_lint_name. split.
  - intros Heq. symmetry. apply LintCode_name_inj. congruence.
  - by intros ->.
Qed.

Lemma has_code_unique c c' (f : Finding) : has_code c f → has_code c' f → c = c'.
Proof.
  unfold has_code. intros H1 H2. apply LintCode_name_inj. congruence.
Qed.

Lemma filter_all {A} (P : A → Prop) `{∀ x, Decision (P x)} (l : list A) :
  Forall P l → filter P l = l.
Proof.
  induction 1 as [|x l Hx _ IH]; [done|].
  rewrite filter_cons_True by done. by rewrite IH.
Qed.

Lemma filter_none {A} (P : A → Prop) `{∀ x, Decision (P x)} (l : list A) :
  Forall (λ x, ¬ P x) l → filter P l = [].
Proof.
  induction 1 as [|x l Hx _ IH]; [done|].
  by rewrite filter_cons_False.
Qed.

(** The findings of the parameter loop: one per parameter that requires grad,
    in iteration order. *)
Lemma flat_map_param_lints (params : list (string * Param)) :
  flat_map param_lints params =
    requires_grad_lint <$> (filter (λ np, requires_grad np.2 = true) params).*1.
Proof.
  induction params as [|[name p] params IH]; [done|].
  simpl. rewrite IH. unfold param_lints at 1. simpl.
  destruct (requires_grad p) eqn:Hg.
  - rewrite filter_cons_True by done. done.
  - rewrite filter_cons_False; [done|]. simpl. rewrite Hg. done.
Qed.

Lemma Forall_param_lints (params : list (string * Param)) :
  Forall (has_code REQUIRES_GRAD) (flat_map param_lints params).
Proof.
  rewrite flat_map_param_lints, Forall_fmap. apply Forall_forall.
  intros name _. by apply has_code_mk_lint.
Qed.

Lemma Forall_op_lints (ops : list string) :
  Forall (λ f, has_code DROPOUT f ∨ has_code BATCHNORM f) (flat_map op_lints ops).
Proof.
  apply Forall_forall. intros f Hf. apply elem_of_flat_op_lints in Hf.
  destruct Hf as (op & _ & Hf). apply elem_of_op_lints in Hf.
  destruct Hf as [[_ ->]|[_ ->]]; [left|right]; by apply has_code_mk_lint.
Qed.

Lemma filter_dropout_op_lints (ops : list string) :
  filter (has_code DROPOUT) (flat_map op_lints ops) =
    dropout_lint <$> filter (λ op, py_in "dropout" op = true) ops.
Proof.
  induction ops as [|op ops IH]; [done|].
  simpl. rewrite filter_app, IH.
  assert (Hone : filter (has_code DROPOUT) (op_lints op) =
                 if py_in "dropout" op then [dropout_lint op] else []).
  { unfold op_lints.
    destruct (py_in "dropout" op), (py_in "batch_norm" op); reflexivity. }
  rewrite Hone. destruct (py_in "dropout" op) eqn:Hd.
  - rewrite filter_cons_True by done. done.
  - rewrite filter_cons_False by congruence. done.
Qed.

Lemma filter_batchnorm_op_lints (ops : list string) :
  filter (has_code BATCHNORM) (flat_map op_lints ops) =
    batchnorm_lint <$> filter (λ op, py_in "batch_norm" op = true) ops.
Proof.
  induction ops as [|op ops IH]; [done|].
  simpl. rewrite filter_app, IH.
  assert (Hone : filter (has_code BATCHNORM) (op_lints op) =
                 if py_in "batch_norm" op then [batchnorm_lint op] else []).
  { unfold op_lints.
    destruct (py_in "dropout" op), (py_in "batch_norm" op); reflexivity. }
  rewrite Hone. destruct (py_in "batch_norm" op) eqn:Hb.
  - rewrite filter_cons_True by done. done.
  - rewrite filter_cons_False by congruence. done.
Qed.

Lemma length_param_lints (params : list (string * Param)) :
  length (flat_map param_lints params) =
    length (filter (λ np, requires_grad np.2 = true) params).
Proof. by rewrite flat_map_param_lints, !length_fmap. Qed.

Lemma length_op_lints (ops : list string) :
  length (flat_map op_lints ops) =
    length (filter (λ op, py_in "dropout" op = true) ops) +
    length (filter (λ op, py_in "batch_norm" op = true) ops).
Proof.
  induction ops as [|op ops IH]; [done|].
  simpl. rewrite length_app, IH. unfold op_lints.
  destruct (py_in "dropout" op) eqn:Hd, (py_in "batch_norm" op) eqn:Hb;
    [rewrite !filter_cons_True by done
    |rewrite (filter_cons_True _ op) by done;
     rewrite (filter_cons_False (λ op, py_in "batch_norm" op = true)) by congruence
    |rewrite (filter_cons_False (λ op, py_in "dropout" op = true)) by congruence;
     rewrite (filter_cons_True _ op) by done
    |rewrite !filter_cons_False by congruence];
    simpl; lia.
Qed.

Lemma requires_grad_lint_inj : Inj (=) (=) requires_grad_lint.
Proof.
  intros n1 n2 Heq. apply mk_lint_inj in Heq. destruct Heq as [_ Heq].
  by apply requires_grad_message_inj.
Qed.

Lemma NoDup_fst_filter {A B} (P : A * B → Prop) `{∀ x, Decision (P x)}
    (l : list (A * B)) :
  NoDup l.*1 → NoDup (filter P l).*1.
Proof.
  assert (Hsub : (filter P l).*1 `sublist_of` l.*1).
  { induction l as [|x l IH]; [done|].
    rewrite filter_cons. destruct (decide (P x)).
    - rewrite !fmap_cons. by apply sublist_skip.
    - rewrite fmap_cons. by apply sublist_cons. }
  intros Hnd. by eapply sublist_NoDup.
Qed.

Lemma NoDup_op_lints (ops : list string) :
  NoDup ops → NoDup (flat_map op_lints ops).
Proof.
  induction ops as [|op ops IH]; intros Hnd; [apply NoDup_nil_2|].
  apply NoDup_cons in Hnd. destruct Hnd as [Hfresh Hnd].
  simpl. apply NoDup_app. split; [|split; [|by apply IH]].
  - unfold op_lints.
    destruct (py_in "dropout" op), (py_in "batch_norm" op); simpl;
      try apply NoDup_nil_2; try apply NoDup_singleton.
    apply NoDup_cons. split; [|apply NoDup_singleton].
    rewrite list_elem_of_singleton. intros Heq.
    apply mk_lint_inj in Heq. by destruct Heq.
  - intros f Hf Hrest. apply elem_of_flat_op_lints in Hrest.
    destruct Hrest as (op' & Hin & Hf'). apply Hfresh.
    apply elem_of_op_lints in Hf, Hf'.
    destruct Hf as [[_ ->]|[_ ->]], Hf' as [[_ Heq]|[_ Heq]];
      apply mk_lint_inj in Heq; destruct Heq as [Hc Heq]; try discriminate Hc.
    + apply dropout_message_inj in Heq. by subst.
    + apply batchnorm_message_inj in Heq. by subst.
Qed.

(** X4: the first two checks, as membership. The lint of a module holds the
    BUNDLED_INPUT finding exactly when the module has no attribute
    [_generate_bundled_inputs], and the REQUIRES_GRAD finding for a name
    exactly when some parameter of that name requires grad. *)
Theorem lint_bundled_and_grad_findings_iff w l cm :
  module_at w l cm →
  ∃ lints w',
    generate_mobile_module_lints (VRef l) w = (Ok lints, w') ∧
    (bundled_input_lint ∈ lints ↔ "_generate_bundled_inputs" ∉ methods cm) ∧
    (∀ name, requires_grad_lint name ∈ lints ↔
             ∃ p, (name, p) ∈ parameters cm ∧ requires_grad p = true).
Proof.
  intros Hm. eexists _, _. split; [apply (lint_run _ _ _ Hm)|].
  unfold lints_of. split; [|intros name];
    rewrite !elem_of_app, elem_of_param_lints, elem_of_flat_op_lints; split.
  - intros [Hb|[(name & p & _ & _ & Heq)|(op & _ & Hf)]].
    + unfold bundled_lints in Hb. case_bool_decide; [|done].
      by apply elem_of_nil in Hb.
    + apply mk_lint_inj in Heq. by destruct Heq.
    + apply elem_of_op_lints in Hf.
      destruct Hf as [[_ Heq]|[_ Heq]]; apply mk_lint_inj in Heq; by destruct Heq.
  - intros Hno. left. unfold bundled_lints.
    rewrite bool_decide_eq_false_2 by done. by apply list_elem_of_singleton.
  - intros [Hb|[(name' & p & Hin & Hg & Heq)|(op & _ & Hf)]].
    + unfold bundled_lints in Hb. case_bool_decide.
      * by apply elem_of_nil in Hb.
      * apply list_elem_of_singleton, mk_lint_inj in Hb. by destruct Hb.
    + apply requires_grad_lint_inj in Heq. subst name'. by exists p.
    + apply elem_of_op_lints in Hf.
      destruct Hf as [[_ Heq]|[_ Heq]]; apply mk_lint_inj in Heq; by destruct Heq.
  - intros (p & Hin & Hg). right; left. by exists name, p.
Qed.

(** X5: the lint of a module is the empty list exactly when the module has
    the attribute [_generate_bundled_inputs], none of its parameters requires
    grad, and none of its operator names contains "dropout" or
    "batch_norm". *)
Theorem lint_empty_iff w l cm :
  module_at w l cm →
  (generate_mobile_module_lints (VRef l) w).1 = Ok [] ↔
  "_generate_bundled_inputs" ∈ methods cm ∧
  (∀ name p, (name, p) ∈ parameters cm → requires_grad p = false) ∧
  (∀ op, op ∈ opnames cm →
         py_in "dropout" op = false ∧ py_in "batch_norm" op = false).
Proof.
  intros Hm. rewrite (lint_run _ _ _ Hm). simpl. split.
  - intros Hnil. injection Hnil as Hnil. unfold lints_of in Hnil.
    apply app_eq_nil in Hnil. destruct Hnil as [Hb Hnil].
    apply app_eq_nil in Hnil. destruct Hnil as [Hp Ho].
    split; [|split].
    + unfold bundled_lints in Hb. by case_bool_decide.
    + intros name p Hin. destruct (requires_grad p) eqn:Hg; [|done].
      assert (Hf : requires_grad_lint name ∈ flat_map param_lints (parameters cm))
        by (apply elem_of_param_lints; by exists name, p).
      rewrite Hp in Hf. by apply elem_of_nil in Hf.
    + intros op Hin.
      destruct (py_in "dropout" op) eqn:Hd.
      { assert (Hf : dropout_lint op ∈ flat_map op_lints (opnames cm)).
        { apply elem_of_flat_op_lints. exists op. split; [done|].
          apply elem_of_op_lints. by left. }
        rewrite Ho in Hf. by apply elem_of_nil in Hf. }
      destruct (py_in "batch_norm" op) eqn:Hb'; [|done].
      assert (Hf : batchnorm_lint op ∈ flat_map op_lints (opnames cm)).
      { apply elem_of_flat_op_lints. exists op. split; [done|].
        apply elem_of_op_lints. by right. }
      rewrite Ho in Hf. by apply elem_of_nil in Hf.
  - intros (Hb & Hp & Ho). f_equal. unfold lints_of, bundled_lints.
    rewrite bool_decide_eq_true_2 by done. simpl.
    assert (Hps : flat_map param_lints (parameters cm) = []).
    { apply elem_of_nil_inv. intros f Hf. apply elem_of_param_lints in Hf.
      destruct Hf as (name & p & Hin & Hg & _). rewrite (Hp _ _ Hin) in Hg.
      discriminate Hg. }
    assert (Hos : flat_map op_lints (opnames cm) = []).
    { apply elem_of_nil_inv. intros f Hf. apply elem_of_flat_op_lints in Hf.
      destruct Hf as (op & Hin & Hf). apply elem_of_op_lints in Hf.
      destruct (Ho _ Hin) as [Hd Hb']. rewrite Hd, Hb' in Hf.
      destruct Hf as [[Hf _]|[Hf _]]; discriminate Hf. }
    by rewrite Hps, Hos.
Qed.

(** X6: nothing is merged and nothing is dropped. The lint of a module has
    one finding when the bundled-input attribute is missing, one per
    parameter that requires grad, one per operator name that contains
    "dropout" and one per operator name that contains "batch_norm", repeated
    names counted as often as they occur; so at most one, plus the number of
    parameters, plus twice the number of operator names. *)
Theorem lint_length w l cm :
  module_at w l cm →
  ∃ lints w',
    generate_mobile_module_lints (VRef l) w = (Ok lints, w') ∧
    length lints =
      (if bool_decide ("_generate_bundled_inputs" ∈ methods cm) then 0 else 1) +
      length (filter (λ np, requires_grad np.2 = true) (parameters cm)) +
      length (filter (λ op, py_in "dropout" op = true) (opnames cm)) +
      length (filter (λ op, py_in "batch_norm" op = true) (opnames cm)) ∧
    (length lints ≤ 1 + length (parameters cm) + 2 * length (opnames cm))%nat.
Proof.
  intros Hm. eexists _, _. split; [apply (lint_run _ _ _ Hm)|].
  assert (Hlen : length (lints_of cm) =
      (if bool_decide ("_generate_bundled_inputs" ∈ methods cm) then 0 else 1) +
      length (filter (λ np, requires_grad np.2 = true) (parameters cm)) +
      length (filter (λ op, py_in "dropout" op = true) (opnames cm)) +
      length (filter (λ op, py_in "batch_norm" op = true) (opnames cm))).
  { unfold lints_of, bundled_lints.
    rewrite !length_app, length_param_lints, length_op_lints.
    destruct (bool_decide _); simpl; lia. }
  split; [exact Hlen|]. rewrite Hlen.
  pose proof (length_filter (λ np : string * Param, requires_grad np.2 = true)
                (parameters cm)).
  pose proof (length_filter (λ op, py_in "dropout" op = true) (opnames cm)).
  pose proof (length_filter (λ op, py_in "batch_norm" op = true) (opnames cm)).
  destruct (bool_decide _); lia.
Qed.

(** X7: the findings come in three blocks, in the order of the three checks:
    first the BUNDLED_INPUT finding if there is one, then the REQUIRES_GRAD
    findings, then the DROPOUT and BATCHNORM findings; no finding of an
    earlier check follows one of a later check. *)
Theorem lint_blocks_in_check_order w l cm :
  module_at w l cm →
  ∃ bs ps os,
    (generate_mobile_module_lints (VRef l) w).1 = Ok (bs ++ ps ++ os) ∧
    (bs = [] ∨ bs = [bundled_input_lint]) ∧
    Forall (has_code REQUIRES_GRAD) ps ∧
    Forall (λ f, has_code DROPOUT f ∨ has_code BATCHNORM f) os.
Proof.
  intros Hm.
  exists (bundled_lints cm), (flat_map param_lints (parameters cm)),
         (flat_map op_lints (opnames cm)).
  split; [by rewrite (lint_run _ _ _ Hm)|]. split; [|split].
  - unfold bundled_lints. destruct (bool_decide _); auto.
  - apply Forall_param_lints.
  - apply Forall_op_lints.
Qed.

(** X8: within each check the findings keep the iteration order. The
    REQUIRES_GRAD findings of the lint are, in order, those of the parameters
    that require grad; its DROPOUT findings are, in order, those of the
    operator names that contain "dropout"; its BATCHNORM findings are, in
    order, those of the operator names that contain "batch_norm". *)
Theorem lint_findings_in_iteration_order w l cm :
  module_at w l cm →
  ∃ lints w',
    generate_mobile_module_lints (VRef l) w = (Ok lints, w') ∧
    filter (has_code REQUIRES_GRAD) lints =
      requires_grad_lint <$>
        (filter (λ np, requires_grad np.2 = true) (parameters cm)).*1 ∧
    filter (has_code DROPOUT) lints =
      dropout_lint <$> filter (λ op, py_in "dropout" op = true) (opnames cm) ∧
    filter (has_code BATCHNORM) lints =
      batchnorm_lint <$> filter (λ op, py_in "batch_norm" op = true) (opnames cm).
Proof.
  intros Hm. eexists _, _. split; [apply (lint_run _ _ _ Hm)|].
  assert (Hb : ∀ c, c ≠ BUNDLED_INPUT → filter (has_code c) (bundled_lints cm) = []).
  { intros c Hc. unfold bundled_lints. destruct (bool_decide _); [done|].
    apply filter_singleton_False; [exact []|].
    unfold bundled_input_lint. by rewrite has_code_mk_lint. }
  assert (Hp : ∀ c, c ≠ REQUIRES_GRAD →
            filter (has_code c) (flat_map param_lints (parameters cm)) = []).
  { intros c Hc. apply filter_none.
    eapply Forall_impl; [apply Forall_param_lints|].
    intros f Hf Hf'. apply Hc. by eapply has_code_unique. }
  assert (Ho : filter (has_code REQUIRES_GRAD)
                 (flat_map op_lints (opnames cm)) = []).
  { apply filter_none. eapply Forall_impl; [apply Forall_op_lints|].
    intros f [Hf|Hf] Hf'; by pose proof (has_code_unique _ _ _ Hf Hf'). }
  unfold lints_of. rewrite !filter_app. split; [|split].
  - rewrite Hb, Ho by done. simpl. rewrite app_nil_r.
    rewrite filter_all by apply Forall_param_lints.
    apply flat_map_param_lints.
  - rewrite Hb, Hp by done. simpl. apply filter_dropout_op_lints.
  - rewrite Hb, Hp by done. simpl. apply filter_batchnorm_op_lints.
Qed.

(** X9: distinct inputs give distinct findings. When the parameter names of a
    module are pairwise distinct and so are its operator names, no finding
    occurs twice in its lint. *)
Theorem lint_findings_distinct w l cm :
  module_at w l cm →
  NoDup (parameters cm).*1 →
  NoDup (opnames cm) →
  ∃ lints w',
    generate_mobile_module_lints (VRef l) w = (Ok lints, w') ∧ NoDup lints.
Proof.
  intros Hm Hps Hops. eexists _, _. split; [apply (lint_run _ _ _ Hm)|].
  unfold lints_of. apply NoDup_app. split; [|split].
  - unfold bundled_lints. destruct (bool_decide _);
      [apply NoDup_nil_2 | apply NoDup_singleton].
  - intros f Hb Hrest. unfold bundled_lints in Hb.
    destruct (bool_decide _); [by apply elem_of_nil in Hb|].
    apply list_elem_of_singleton in Hb. subst f.
    apply elem_of_app in Hrest. destruct Hrest as [Hf|Hf].
    + apply elem_of_param_lints in Hf. destruct Hf as (name & p & _ & _ & Heq).
      apply mk_lint_inj in Heq. by destruct Heq.
    + apply elem_of_flat_op_lints in Hf. destruct Hf as (op & _ & Hf).
      apply elem_of_op_lints in Hf.
      destruct Hf as [[_ Heq]|[_ Heq]]; apply mk_lint_inj in Heq; by destruct Heq.
  - apply NoDup_app. split; [|split].
    + rewrite flat_map_param_lints.
      pose proof requires_grad_lint_inj as Hinj.
      apply (NoDup_fmap_2 requires_grad_lint).
      by apply NoDup_fst_filter.
    + intros f Hf Hrest. apply elem_of_param_lints in Hf.
      destruct Hf as (name & p & _ & _ & ->).
      apply elem_of_flat_op_lints in Hrest. destruct Hrest as (op & _ & Hf).
      apply elem_of_op_lints in Hf.
      destruct Hf as [[_ Heq]|[_ Heq]]; apply mk_lint_inj in Heq; by destruct Heq.
    + by apply NoDup_op_lints.
Qed.

(** X10: the iteration order of the parameters and of the operator names
    decides the order of the findings and nothing else. Two modules that
    agree on the attribute [_generate_bundled_inputs] and have the same
    parameters and the same operator names, in any order, get the same
    findings up to order. *)
Theorem lint_permutation w1 l1 cm1 w2 l2 cm2 :
  module_at w1 l1 cm1 →
  module_at w2 l2 cm2 →
  ("_generate_bundled_inputs" ∈ methods cm1 ↔
   "_generate_bundled_inputs" ∈ methods cm2) →
  parameters cm1 ≡ₚ parameters cm2 →
  opnames cm1 ≡ₚ opnames cm2 →
  ∃ lints1 lints2,
    (generate_mobile_module_lints (VRef l1) w1).1 = Ok lints1 ∧
    (generate_mobile_module_lints (VRef l2) w2).1 = Ok lints2 ∧
    lints1 ≡ₚ lints2.
Proof.
  intros Hm1 Hm2 Hb Hps Hops. eexists _, _.
  split; [by rewrite (lint_run _ _ _ Hm1)|].
  split; [by rewrite (lint_run _ _ _ Hm2)|].
  unfold lints_of. repeat apply Permutation_app.
  - unfold bundled_lints. rewrite (bool_decide_ext _ _ Hb). done.
  - by apply Permutation_flat_map.
  - by apply Permutation_flat_map.
Qed.

End LintMore.

(** ** The lint after an optimization *)

Section LintAfterOptimize.

Context {PassId : Type} `{Countable PassId} {Graph : Type}.
Implicit Types (w : World PassId Graph) (cm : CppModule Graph).

Variable engine : value → value → M (PassId := PassId) (Graph := Graph) value.
Variable wrap : value → M (PassId := PassId) (Graph := Graph) value.

(** X11: the wrapper writes to no object of the store. With an engine and a
    wrapping API that leave existing objects as they are, the lint of any
    module of the store returns the same findings after a call of
    [optimize_for_mobile] as before it, whatever the call was given and
    whether it returned or raised. *)
Theorem lint_unchanged_by_optimize w l cm v sel :
  (∀ c s, preserving PassId Graph (engine c s)) →
  (∀ c, preserving PassId Graph (wrap c)) →
  module_at w l cm →
  (generate_mobile_module_lints (VRef l)
     (optimize_for_mobile engine wrap v sel w).2).1 =
  (generate_mobile_module_lints (VRef l) w).1.
Proof.
  intros Hengine Hwrap Hm.
  destruct (optimize_for_mobile engine wrap v sel w) as [r w'] eqn:Hrun.
  assert (Hsub : heap w ⊆ heap w').
  { by eapply (preserving_optimize_for_mobile engine wrap v sel). }
  assert (Hm' : module_at w' l cm) by (by eapply module_at_weaken).
  simpl. by rewrite (lint_run _ _ _ Hm), (lint_run _ _ _ Hm').
Qed.


End LintAfterOptimize.

(** ** The claims on the concrete store *)

Module Examples.

Import Scenario.

Local Abbreviation optimize := (optimize_for_mobile_linked known mark_pass).

Lemma module_A : module_at store 2 cm_A.
Proof. exists {| _c := 3%positive |}. split; reflexivity. Qed.

Lemma module_B : module_at store 8 cm_B.
Proof. exists {| _c := 9%positive |}. split; reflexivity. Qed.

Lemma lint_scenario_A_witness :
  (generate_mobile_module_lints (VRef 2) store).1 =
    Ok [mk_lint BUNDLED_INPUT bundled_input_message;
        mk_lint REQUIRES_GRAD (requires_grad_message "weight");
        mk_lint DROPOUT (dropout_message "aten::dropout")].
Proof.
  apply (lint_scenario_A store 2 cm_A {| requires_grad := true |}).
  - exact module_A.
  - simpl. rewrite list_elem_of_singleton. discriminate.
  - reflexivity.
  - reflexivity.
  - reflexivity.
Defined.

Lemma non_module_input_raises_TypeError_witness :
  optimize (VRef 6) None store =
    (Raise (TypeError "Got <class 'torch.nn.Linear'>, but ScriptModule is expected."), store) ∧
  generate_mobile_module_lints (VRef 6) store =
    (Raise (TypeError "Got <class 'torch.nn.Linear'>, but ScriptModule is expected."), store).
Proof.
  apply (non_module_input_raises_TypeError
           (spec_jit_pass_optimize_for_mobile known mark_pass)
           spec_wrap_cpp_module store (VRef 6) None).
  reflexivity.
Defined.

(** C3 fails on the code: a selector that maps an identifier the engine does
    not know is handed to the engine, which here ignores it, and the call
    returns a module; nothing is raised. *)
Lemma unrecognized_pass_is_not_rejected :
  heap store !! 4%positive = Some (ODict {[UNRECOGNIZED := true]}) ∧
  (UNRECOGNIZED ∉ known) ∧
  (optimize (VRef 2) (Some (VRef 4)) store).1 = Ok (VRef 11) ∧
  calls (optimize (VRef 2) (Some (VRef 4)) store).2 =
    [Call_jit_pass_optimize_for_mobile (VRef 3) (VRef 4);
     Call_wrap_cpp_module (VRef 10)] ∧
  ¬ (∃ e w', optimize (VRef 2) (Some (VRef 4)) store = (Raise e, w')).
Proof.
  split; [reflexivity|]. split; [|split; [|split]].
  - unfold known. rewrite !not_elem_of_cons. repeat split; try discriminate.
    apply not_elem_of_nil.
  - vm_compute. reflexivity.
  - vm_compute. reflexivity.
  - intros (e & w' & Hrun). apply (f_equal fst) in Hrun.
    vm_compute in Hrun. discriminate Hrun.
Qed.

Lemma optimize_for_mobile_delegates_selector_witness :
  optimize (VRef 2) (Some (VRef 4)) store =
    spec_wrap_cpp_module (VRef 10)
      {| heap := <[10%positive := OCppModule cm_A]> (heap store);
         calls := [Call_jit_pass_optimize_for_mobile (VRef 3) (VRef 4);
                   Call_wrap_cpp_module (VRef 10)] |}.
Proof.
  pose proof (optimize_for_mobile_delegates_selector
                (spec_jit_pass_optimize_for_mobile known mark_pass)
                spec_wrap_cpp_module store 2 {| _c := 3 |} (Some (VRef 4))
                eq_refl) as Hcall.
  vm_compute in Hcall. vm_compute. exact Hcall.
Defined.

Lemma lint_requires_grad_findings_witness :
  ∃ lints w',
    generate_mobile_module_lints (VRef 8) store = (Ok lints, w') ∧
    (∀ name p, (name, p) ∈ parameters cm_B →
       length (filter (requires_grad_finding_for name) lints) =
         if requires_grad p then 1 else 0) ∧
    (∀ f, f ∈ lints →
       f !! "name" = Some (VStr (LintCode_name REQUIRES_GRAD)) →
       ∃ name p, (name, p) ∈ parameters cm_B ∧ requires_grad p = true ∧
                 requires_grad_finding_for name f).
Proof.
  apply (lint_requires_grad_findings store 8 cm_B).
  - exact module_B.
  - simpl. rewrite !NoDup_cons, !not_elem_of_cons.
    repeat split; try discriminate; try apply not_elem_of_nil. apply NoDup_nil_2.
Defined.

Lemma optimize_leaves_input_unchanged_witness :
  ∃ l' w',
    optimize (VRef 2) (Some (VRef 7)) store = (Ok (VRef l'), w') ∧
    module_at w' 2 cm_A ∧
    (∀ l0 o, heap store !! l0 = Some o → heap w' !! l0 = Some o) ∧
    l' ≠ 2%positive ∧ heap store !! l' = None ∧
    ∃ l1, heap store !! l1 = None ∧
          heap w' !! l' = Some (OScriptModule {| _c := l1 |}).
Proof.
  apply (optimize_leaves_input_unchanged known mark_pass store 2 cm_A
           (Some (VRef 7)) (<[FUSION := true]> {[LAYOUT_CONVERSION := false]})).
  - exact module_A.
  - reflexivity.
Defined.

Lemma omitted_selector_is_empty_selector_witness :
  ∃ l1 w1 l2 w2,
    optimize (VRef 2) None store = (Ok (VRef l1), w1) ∧
    optimize (VRef 2) (Some (VRef 5)) store = (Ok (VRef l2), w2) ∧
    module_at w1 l1 (run_all_passes known mark_pass cm_A) ∧
    module_at w2 l2 (run_all_passes known mark_pass cm_A) ∧
    l1 = l2 ∧ heap w1 = heap w2.
Proof.
  apply (omitted_selector_is_empty_selector known mark_pass store 2 cm_A 5).
  - exact module_A.
  - reflexivity.
  - reflexivity.
Defined.

Lemma optimize_twice_same_graph_witness :
  ∃ l1 w1 l2 w2 cm',
    optimize (VRef 2) (Some (VRef 7)) store = (Ok (VRef l1), w1) ∧
    optimize (VRef 2) (Some (VRef 7)) w1 = (Ok (VRef l2), w2) ∧
    l1 ≠ l2 ∧
    module_at w2 l1 cm' ∧ module_at w2 l2 cm' ∧
    cm' = apply_passes known mark_pass
            (<[FUSION := true]> {[LAYOUT_CONVERSION := false]}) cm_A.
Proof.
  apply (optimize_twice_same_graph known mark_pass store 2 cm_A (Some (VRef 7))).
  - exact module_A.
  - reflexivity.
Defined.

Lemma optimize_never_mutates_selector_witness :
  (∀ ls d, heap store !! ls = Some (ODict d) →
           heap (optimize_each known mark_pass three_calls store).2 !! ls
             = Some (ODict d)) ∧
  (heap store !! DEFAULT_WHITELIST = Some (ODict ∅) →
   ∀ i l cm, three_calls !! i = Some (VRef l, None) → module_at store l cm →
     ∃ l', (optimize_each known mark_pass three_calls store).1 !! i
             = Some (Ok (VRef l')) ∧
           module_at (optimize_each known mark_pass three_calls store).2 l'
             (run_all_passes known mark_pass cm)).
Proof.
  apply (optimize_never_mutates_selector known mark_pass three_calls store).
Defined.

Lemma lint_finding_shape_witness :
  ∃ (c : LintCode) (msg : string),
    dom (requires_grad_lint "weight") = ({["name"; "message"]} : gset string) ∧
    requires_grad_lint "weight" !! "name" = Some (VStr (LintCode_name c)) ∧
    requires_grad_lint "weight" !! "message" = Some (VStr msg).
Proof.
  apply (lint_finding_shape store (VRef 2)
           [bundled_input_lint; requires_grad_lint "weight";
            dropout_lint "aten::dropout"]
           (generate_mobile_module_lints (VRef 2) store).2).
  - vm_compute. reflexivity.
  - right. left.
Defined.

(** C8 fails on the code: the findings have no "code" key, and what they
    hold under "name" is a string, not a member of LintCode. *)
Lemma finding_has_no_code_field :
  ∃ lints w',
    generate_mobile_module_lints (VRef 2) store = (Ok lints, w') ∧
    ¬ (∀ f, f ∈ lints →
         ∃ (c : LintCode) (msg : string),
           f !! "code" = Some (VEnum c) ∧ f !! "message" = Some (VStr msg)) ∧
    (∀ f, f ∈ lints →
       f !! "code" = None ∧ ∀ c : LintCode, f !! "name" ≠ Some (VEnum c)).
Proof.
  eexists _, _. split; [apply (lint_run store 2 cm_A module_A)|].
  assert (Hall : ∀ f : Finding, f ∈ lints_of cm_A →
            f !! "code" = None ∧ ∀ c : LintCode, f !! "name" ≠ Some (VEnum c)).
  { intros f Hf. apply elem_of_lints_of in Hf.
    destruct Hf as [->|[(name & p & _ & _ & ->)|[(op & _ & _ & ->)|(op & _ & _ & ->)]]];
      (split; [reflexivity | intros c Hc; discriminate Hc]). }
  split; [|exact Hall].
  intros Hclaim.
  destruct (Hclaim bundled_input_lint) as (c & msg & Hcode & _).
  - left.
  - discriminate Hcode.
Qed.

Lemma lint_dropout_then_batchnorm_witness :
  (∀ lint_list,
     lint_op lint_list "custom::dropout_batch_norm" =
       lint_list ++ [dropout_lint "custom::dropout_batch_norm";
                     batchnorm_lint "custom::dropout_batch_norm"]) ∧
  (generate_mobile_module_lints (VRef 8) store).1 =
    Ok (fold_left lint_op ["aten::relu"]
          (fold_left lint_param (parameters cm_B) (bundled_lints cm_B))
        ++ [dropout_lint "custom::dropout_batch_norm";
            batchnorm_lint "custom::dropout_batch_norm"]
        ++ fold_left lint_op ["aten::batch_norm"] []).
Proof.
  apply (lint_dropout_then_batchnorm store 8 cm_B
           ["aten::relu"] "custom::dropout_batch_norm" ["aten::batch_norm"]).
  - exact module_B.
  - reflexivity.
  - reflexivity.
  - reflexivity.
Defined.

(** What the lint of the second module is, spelled out. *)
Example lint_of_module_B :
  (generate_mobile_module_lints (VRef 8) store).1 =
    Ok [requires_grad_lint "weight";
        dropout_lint "custom::dropout_batch_norm";
        batchnorm_lint "custom::dropout_batch_norm";
        batchnorm_lint "aten::batch_norm"].
Proof. vm_compute. reflexivity. Qed.

(** What the engine of the scenario computes. *)
Example selected_passes_graph :
  graph (apply_passes known mark_pass
           (<[FUSION := true]> {[LAYOUT_CONVERSION := false]}) cm_A)
  = ["linear"; "dropout"; "fused"].
Proof. vm_compute. reflexivity. Qed.

Example all_passes_graph :
  graph (run_all_passes known mark_pass cm_A)
  = ["linear"; "dropout"; "fused"; "pruned"; "channels_last"].
Proof. reflexivity. Qed.

Example three_calls_outcomes :
  (optimize_each known mark_pass three_calls store).1
  = [Ok (VRef 11); Ok (VRef 13); Ok (VRef 15)].
Proof. vm_compute. reflexivity. Qed.

Lemma lint_raises_only_TypeError_witness :
  isinstance_ScriptModule store (VRef 6) = false ∧
  TypeError "Got <class 'torch.nn.Linear'>, but ScriptModule is expected." =
    TypeError ("Got " +:+ type_str store (VRef 6) +:+
               ", but ScriptModule is expected.") ∧
  store = store.
Proof.
  apply (lint_raises_only_TypeError store (VRef 6)
           (TypeError "Got <class 'torch.nn.Linear'>, but ScriptModule is expected.")
           store).
  - intros l sm Hv Hl. injection Hv as <-. vm_compute in Hl. discriminate Hl.
  - vm_compute. reflexivity.
Defined.

Lemma lint_operator_findings_iff_substring_witness :
  ∃ lints w',
    generate_mobile_module_lints (VRef 8) store = (Ok lints, w') ∧
    (∀ op, dropout_lint op ∈ lints ↔
           op ∈ opnames cm_B ∧ ∃ pre post, op = pre +:+ "dropout" +:+ post) ∧
    (∀ op, batchnorm_lint op ∈ lints ↔
           op ∈ opnames cm_B ∧ ∃ pre post, op = pre +:+ "batch_norm" +:+ post).
Proof.
  apply (lint_operator_findings_iff_substring store 8 cm_B).
  exists {| _c := 9 |}. split; reflexivity.
Defined.

Lemma lint_bundled_and_grad_findings_iff_witness :
  ∃ lints w',
    generate_mobile_module_lints (VRef 2) store = (Ok lints, w') ∧
    (bundled_input_lint ∈ lints ↔ "_generate_bundled_inputs" ∉ methods cm_A) ∧
    (∀ name, requires_grad_lint name ∈ lints ↔
             ∃ p, (name, p) ∈ parameters cm_A ∧ requires_grad p = true).
Proof.
  apply (lint_bundled_and_grad_findings_iff store 2 cm_A).
  exists {| _c := 3 |}. split; reflexivity.
Defined.

Lemma lint_empty_iff_witness :
  (generate_mobile_module_lints (VRef 8) store).1 = Ok [] ↔
  "_generate_bundled_inputs" ∈ methods cm_B ∧
  (∀ name p, (name, p) ∈ parameters cm_B → requires_grad p = false) ∧
  (∀ op, op ∈ opnames cm_B →
         py_in "dropout" op = false ∧ py_in "batch_norm" op = false).
Proof.
  apply (lint_empty_iff store 8 cm_B).
  exists {| _c := 9 |}. split; reflexivity.
Defined.

Lemma lint_length_witness :
  ∃ lints w',
    generate_mobile_module_lints (VRef 8) store = (Ok lints, w') ∧
    length lints =
      (if bool_decide ("_generate_bundled_inputs" ∈ methods cm_B) then 0 else 1) +
      length (filter (λ np, requires_grad np.2 = true) (parameters cm_B)) +
      length (filter (λ op, py_in "dropout" op = true) (opnames cm_B)) +
      length (filter (λ op, py_in "batch_norm" op = true) (opnames cm_B)) ∧
    (length lints ≤ 1 + length (parameters cm_B) + 2 * length (opnames cm_B))%nat.
Proof.
  apply (lint_length store 8 cm_B).
  exists {| _c := 9 |}. split; reflexivity.
Defined.

Lemma lint_blocks_in_check_order_witness :
  ∃ bs ps os,
    (generate_mobile_module_lints (VRef 2) store).1 = Ok (bs ++ ps ++ os) ∧
    (bs = [] ∨ bs = [bundled_input_lint]) ∧
    Forall (has_code REQUIRES_GRAD) ps ∧
    Forall (λ f, has_code DROPOUT f ∨ has_code BATCHNORM f) os.
Proof.
  apply (lint_blocks_in_check_order store 2 cm_A).
  exists {| _c := 3 |}. split; reflexivity.
Defined.

Lemma lint_findings_in_iteration_order_witness :
  ∃ lints w',
    generate_mobile_module_lints (VRef 8) store = (Ok lints, w') ∧
    filter (has_code REQUIRES_GRAD) lints =
      requires_grad_lint <$>
        (filter (λ np, requires_grad np.2 = true) (parameters cm_B)).*1 ∧
    filter (has_code DROPOUT) lints =
      dropout_lint <$> filter (λ op, py_in "dropout" op = true) (opnames cm_B) ∧
    filter (has_code BATCHNORM) lints =
      batchnorm_lint <$> filter (λ op, py_in "batch_norm" op = true) (opnames cm_B).
Proof.
  apply (lint_findings_in_iteration_order store 8 cm_B).
  exists {| _c := 9 |}. split; reflexivity.
Defined.

Lemma lint_findings_distinct_witness :
  ∃ lints w',
    generate_mobile_module_lints (VRef 8) store = (Ok lints, w') ∧ NoDup lints.
Proof.
  apply (lint_findings_distinct store 8 cm_B).
  - exists {| _c := 9 |}. split; reflexivity.
  - simpl. rewrite !NoDup_cons, !not_elem_of_cons.
    repeat split; try discriminate; try apply not_elem_of_nil. apply NoDup_nil_2.
  - simpl. rewrite !NoDup_cons, !not_elem_of_cons.
    repeat split; try discriminate; try apply not_elem_of_nil. apply NoDup_nil_2.
Defined.

Lemma lint_permutation_witness :
  ∃ lints1 lints2,
    (generate_mobile_module_lints (VRef 2) store).1 = Ok lints1 ∧
    (generate_mobile_module_lints (VRef 2) store_rev).1 = Ok lints2 ∧
    lints1 ≡ₚ lints2.
Proof.
  apply (lint_permutation store 2 cm_A store_rev 2 cm_A_rev).
  - exists {| _c := 3 |}. split; reflexivity.
  - exists {| _c := 3 |}. split; reflexivity.
  - reflexivity.
  - reflexivity.
  - apply perm_swap.
Defined.

Lemma lint_unchanged_by_optimize_witness :
  (generate_mobile_module_lints (VRef 8)
     (optimize (VRef 2) None store).2).1 =
  (generate_mobile_module_lints (VRef 8) store).1.
Proof.
  apply (lint_unchanged_by_optimize
           (spec_jit_pass_optimize_for_mobile known mark_pass)
           spec_wrap_cpp_module store 8 cm_B (VRef 2) None).
  - apply preserving_spec_engine.
  - apply preserving_spec_wrap.
  - exists {| _c := 9 |}. split; reflexivity.
Defined.




End Examples.
